(** * The in-sanity checker of naev (utils/in-sanity/main.py)

    A shallow embedding of [lineNumber] and of [sanitizer.dah_doctor]: the
    primary scan of the Lua scripts for the four asset calls, the pending
    list of diagnostics, and the secondary scan that looks the unused names
    up in the cached texts.

    Python [str] values are modelled by [string] (characters with codes 0
    to 255), Python integers by [Z] where they can be negative and by [nat]
    where they are indices into a text. *)

From Stdlib Require Import String Ascii List Bool Arith ZArith Lia.
From Stdlib Require Import DecimalString.
Import ListNotations.

Local Open Scope list_scope.
Local Open Scope string_scope.

(** ** Characters and strings *)

(** The double quote and the line feed. *)
Definition dquote : ascii := "034"%char.
Definition newline : ascii := "010"%char.

(** [s[:n]] and [s[n:]] for [0 <= n]. *)
Fixpoint take (n : nat) (s : string) : string :=
  match n, s with
  | S n', String c s' => String c (take n' s')
  | _, _ => EmptyString
  end.

Fixpoint drop (n : nat) (s : string) : string :=
  match n, s with
  | S n', String _ s' => drop n' s'
  | _, _ => s
  end.

(** [s[:-1]]. *)
Definition drop_last (s : string) : string := take (String.length s - 1) s.

(** [c in s] for a character. *)
Fixpoint mem (c : ascii) (s : string) : bool :=
  match s with
  | EmptyString => false
  | String a s' => Ascii.eqb a c || mem c s'
  end.

(** [s.count(c, 0, stop)] for a one-character [c]. *)
Fixpoint count (c : ascii) (s : string) (stop : nat) : nat :=
  match stop, s with
  | S n, String a s' => (if Ascii.eqb a c then 1 else 0) + count c s' n
  | _, _ => 0
  end.

(** [s.rfind(c, 0, stop)] for a one-character [c]: the highest index below
    [stop] that holds [c], and -1 when there is none.  [i] is the index of
    the head of [s] in the whole text and [last] the answer so far. *)
Fixpoint rfind_from (c : ascii) (s : string) (stop i : nat) (last : Z) : Z :=
  match stop, s with
  | S n, String a s' =>
      rfind_from c s' n (S i) (if Ascii.eqb a c then Z.of_nat i else last)
  | _, _ => last
  end.

Definition rfind (c : ascii) (s : string) (stop : nat) : Z :=
  rfind_from c s stop 0 (-1)%Z.

(** [s.replace(' ', new)]. *)
Fixpoint replace_space (new : string) (s : string) : string :=
  match s with
  | EmptyString => EmptyString
  | String c s' =>
      if Ascii.eqb c " "%char then new ++ replace_space new s'
      else String c (replace_space new s')
  end.

(** If [p] is a prefix of [s], the rest of [s]. *)
Fixpoint strip_prefix (p s : string) : option string :=
  match p, s with
  | EmptyString, _ => Some s
  | String a p', String b s' =>
      if Ascii.eqb a b then strip_prefix p' s' else None
  | String _ _, EmptyString => None
  end.

(** The [%d] conversion. *)
Definition format_d (z : Z) : string := NilEmpty.string_of_int (Z.to_int z).

(** ** lineNumber *)

(** [lineNumber(string, start)]:
    [lineno = string.count('\n', 0, start) + 1] and
    [offset = start - string.rfind('\n', 0, start)]. *)
Definition lineNumber (string : string) (start : nat) : Z * Z :=
  let lineno := (Z.of_nat (count newline string start) + 1)%Z in
  let offset := (Z.of_nat start - rfind newline string start)%Z in
  (lineno, offset).

(** ** Regular expressions

    The fragment of Python's [re] that the two patterns of [dah_doctor]
    need, with the semantics of its backtracking matcher: ordered
    alternation, greedy repetition, named groups. *)

Inductive regex : Type :=
| Lit (s : string)                  (* a run of literal characters *)
| Cls (p : ascii -> bool)           (* one character of a class *)
| ClsPlus (p : ascii -> bool)       (* [...]+ , greedy *)
| Cat (r1 r2 : regex)
| Alt (r1 r2 : regex)               (* r1|r2, r1 tried first *)
| Group (name : string) (r : regex) (* (?P<name>r) *).

(** The named groups of a match, innermost and latest first. *)
Definition groups := list (string * string).

(** One or more characters of the class [p], as many as possible first;
    [k] continues on the rest of the text and [None] makes the matcher give
    a character back. *)
Fixpoint plus_greedy {X : Type} (p : ascii -> bool) (s : string)
    (k : string -> option X) : option X :=
  match s with
  | String c s' =>
      if p c then
        match plus_greedy p s' k with
        | Some x => Some x
        | None => k s'
        end
      else None
  | EmptyString => None
  end.

(** [exec r s g k]: match [r] at the head of [s], then continue with [k] on
    what is left. *)
Fixpoint exec {X : Type} (r : regex) (s : string) (g : groups)
    (k : string -> groups -> option X) : option X :=
  match r with
  | Lit l =>
      match strip_prefix l s with
      | Some s' => k s' g
      | None => None
      end
  | Cls p =>
      match s with
      | String c s' => if p c then k s' g else None
      | EmptyString => None
      end
  | ClsPlus p => plus_greedy p s (fun s' => k s' g)
  | Cat r1 r2 => exec r1 s g (fun s' g' => exec r2 s' g' k)
  | Alt r1 r2 =>
      match exec r1 s g k with
      | Some x => Some x
      | None => exec r2 s g k
      end
  | Group n r1 =>
      exec r1 s g
        (fun s' g' => k s' ((n, take (String.length s - String.length s') s) :: g'))
  end.

(** A match at the head of [s]: its length and its groups. *)
Definition match_at (r : regex) (s : string) : option (nat * groups) :=
  exec r s [] (fun s' g => Some (String.length s - String.length s', g)).

(** A match object: [m.start()], [m.end()] and the named groups. *)
Record match_obj : Type := mkMatch {
  m_start : nat;
  m_end : nat;
  m_groups : groups
}.

(** [m.group(name)]; the empty string stands for a group that took no part
    in the match, which the patterns below never leave. *)
Fixpoint lookup_group (name : string) (g : groups) : string :=
  match g with
  | [] => EmptyString
  | (n, v) :: g' => if String.eqb n name then v else lookup_group name g'
  end.

Definition group (m : match_obj) (name : string) : string :=
  lookup_group name (m_groups m).

(** [cobj.finditer(text)]: the matches from left to right, none overlapping
    another.  [pos] is the index of the head of [s] in the text; [skip]
    counts the characters still inside the match reported last, where no
    match may start.  The patterns of this file match no empty string. *)
Fixpoint finditer_from (r : regex) (pos skip : nat) (s : string)
    : list match_obj :=
  match skip with
  | S skip' =>
      match s with
      | String _ s' => finditer_from r (S pos) skip' s'
      | EmptyString => []
      end
  | 0 =>
      match match_at r s with
      | Some (len, g) =>
          mkMatch pos (pos + len) g ::
          match s with
          | String _ s' => finditer_from r (S pos) (len - 1) s'
          | EmptyString => []
          end
      | None =>
          match s with
          | String _ s' => finditer_from r (S pos) 0 s'
          | EmptyString => []
          end
      end
  end.

Definition finditer (r : regex) (text : string) : list match_obj :=
  finditer_from r 0 0 text.

(** ** The pattern of the primary scan

    [rawstr], compiled with [re.VERBOSE]: the white space of the pattern is
    dropped, [\.] and [\(] are the literal characters, and the raw string
    ends at its three closing quotes, so that the pattern ends with the
    group [content] and asks for no closing quote:

      (?P<func> pilot\.add\( | player\.addShip\( | addOutfit\( | diff\.apply\( )
      DQUOTE (?P<content> [^DQUOTE]+ )                                     *)

Definition not_dquote (c : ascii) : bool := negb (Ascii.eqb c dquote).

Definition search_cobj : regex :=
  Cat (Group "func"
         (Alt (Lit "pilot.add(")
         (Alt (Lit "player.addShip(")
         (Alt (Lit "addOutfit(")
              (Lit "diff.apply(")))))
      (Cat (Lit (String dquote EmptyString))
           (Group "content" (ClsPlus not_dquote))).

Definition keywords : list string :=
  ["pilot.add("; "player.addShip("; "addOutfit("; "diff.apply("].

(** ** Compiling the patterns of the secondary scan

    The secondary patterns are built at run time from the unused names and
    compiled with [re.VERBOSE].  [re_compile] reads the patterns that names
    made of ordinary characters and spaces give: one named group around
    alternatives of literal characters and [\s].  [None] stands for a
    pattern outside this fragment (a name with a character that is special
    in [re], or an empty alternative), on which this model says nothing. *)

Definition code_in (c : ascii) (codes : list nat) : bool :=
  existsb (Nat.eqb (nat_of_ascii c)) codes.

(** The white space that [re.VERBOSE] drops from a pattern. *)
Definition is_verbose_ws (c : ascii) : bool := code_in c [32; 9; 10; 13; 11; 12].

(** The class [\s] of a [str] pattern: the characters for which
    [str.isspace] holds, here those with a code below 256. *)
Definition is_space (c : ascii) : bool :=
  code_in c [9; 10; 11; 12; 13; 28; 29; 30; 31; 32; 133; 160].

(** The characters with a meaning of their own in a verbose pattern. *)
Definition is_special (c : ascii) : bool := mem c ".\[{()*+?^$|#".

Definition is_ident_char (c : ascii) : bool :=
  let n := nat_of_ascii c in
  (((97 <=? n) && (n <=? 122)) || ((65 <=? n) && (n <=? 90)) ||
   ((48 <=? n) && (n <=? 57)) || (n =? 95))%nat.

(** The atoms of one alternative, in sequence. *)
Fixpoint seq_of (atoms : list regex) : regex :=
  match atoms with
  | [] => Lit EmptyString
  | [a] => a
  | a :: rest => Cat a (seq_of rest)
  end.

(** [r|r1|...|rn]. *)
Fixpoint alt_of (r : regex) (rest : list regex) : regex :=
  match rest with
  | [] => r
  | r' :: rest' => Alt r (alt_of r' rest')
  end.

(** The body of a group up to its closing parenthesis: [cur] holds the atoms
    of the alternative being read, [alts] the alternatives read so far.
    Returns the alternatives and the text after the parenthesis. *)
Fixpoint parse_alts (s : string) (cur alts : list regex)
    : option (list regex * string) :=
  match s with
  | EmptyString => None
  | String c s' =>
      if Ascii.eqb c ")" then
        match cur with
        | [] => None
        | _ => Some ((alts ++ [seq_of cur])%list, s')
        end
      else if Ascii.eqb c "|" then
        match cur with
        | [] => None
        | _ => parse_alts s' [] (alts ++ [seq_of cur])%list
        end
      else if Ascii.eqb c "\" then
        match s' with
        | String "s" s'' => parse_alts s'' (cur ++ [Cls is_space])%list alts
        | _ => None
        end
      else if is_verbose_ws c then parse_alts s' cur alts
      else if is_special c then None
      else parse_alts s' (cur ++ [Lit (String c EmptyString)])%list alts
  end.

Fixpoint skip_ws (s : string) : string :=
  match s with
  | String c s' => if is_verbose_ws c then skip_ws s' else s
  | EmptyString => s
  end.

(** The name of a group, up to [>]. *)
Fixpoint parse_name (s : string) (acc : string) : option (string * string) :=
  match s with
  | EmptyString => None
  | String c s' =>
      if Ascii.eqb c ">" then
        match acc with
        | EmptyString => None
        | _ => Some (acc, s')
        end
      else if is_ident_char c then parse_name s' (acc ++ String c EmptyString)
      else None
  end.

(** [re.compile(pattern, re.VERBOSE | re.UNICODE)] on the fragment. *)
Definition re_compile (pattern : string) : option regex :=
  match strip_prefix "(?P<" (skip_ws pattern) with
  | None => None
  | Some s1 =>
      match parse_name s1 EmptyString with
      | None => None
      | Some (name, s2) =>
          match parse_alts s2 [] [] with
          | Some (r :: rest, s3) =>
              match skip_ws s3 with
              | EmptyString => Some (Group name (alt_of r rest))
              | _ => None
              end
          | _ => None
          end
      end
  end.

(** ** The readers

    [dah_doctor] imports the classes [fleet], [ship], [outfit] and [unidiff]
    from the package [readers] and calls three of their methods.  The doctor
    is written against this interface; each method takes the object and
    returns it as the call leaves it. *)

Class Reader (R : Type) : Type := {
  find : string -> R -> bool * R;
  get_unused : R -> list string;
  set_unknown : string -> R -> R
}.

(** Modelled from the spec: an entity of a registry, the record that the
    classes of [readers] keep for each name of the data files; [name] is
    its key and [usageCount] starts at 0. *)
Record entity : Type := mkEntity {
  name : string;
  usageCount : nat
}.

(** Modelled from the spec: the state of one reader object ([fleet],
    [ship], [outfit] or [unidiff] of the package [readers]), its entities
    in the order of the data file. *)
Definition registry : Type := list entity.

(** Modelled from the spec: whether [n] is a known entity of the category,
    the test behind [find] and [set_unknown] of [readers]. *)
Definition known (n : string) (r : registry) : bool :=
  existsb (fun e => String.eqb (name e) n) r.

(** Modelled from the spec: [find(name)] of [readers], true iff [name] is a
    known entity, whose [usageCount] it increments; an unknown name returns
    false and changes nothing. *)
Definition registry_find (n : string) (r : registry) : bool * registry :=
  if known n r then
    (true,
     map (fun e =>
            if String.eqb (name e) n
            then mkEntity (name e) (S (usageCount e)) else e) r)
  else (false, r).

(** Modelled from the spec: [get_unused()] of [readers], the names with
    [usageCount == 0]. *)
Definition registry_get_unused (r : registry) : list string :=
  map name (filter (fun e => Nat.eqb (usageCount e) 0) r).

(** Modelled from the spec: [set_unknown(name)] of [readers], which forces
    the [usageCount] of [name] to a nonzero value and does nothing for a
    name that is not a known entity. *)
Definition registry_set_unknown (n : string) (r : registry) : registry :=
  map (fun e =>
         if String.eqb (name e) n
         then mkEntity (name e) (Nat.max 1 (usageCount e)) else e) r.

(** Modelled from the spec: the three methods above as the interface that
    the doctor calls. *)
#[export] Instance registry_reader : Reader registry := {
  find := registry_find;
  get_unused := registry_get_unused;
  set_unknown := registry_set_unknown
}.

(** ** The doctor *)

(** The four reader objects of [dah_doctor], by the name of the variable
    that holds them. *)
Inductive obj : Type := Fleetdata | Udata | Shipdata | Outfitdata.

(** What the run does to the outside, in order: a line printed on standard
    output or on standard error (without the terminator that [print]
    adds), and the calls of the readers' methods. *)
Inductive event : Type :=
| Stdout (s : string)
| Stderr (s : string)
| CallFind (o : obj) (arg : string)
| CallSetUnknown (o : obj) (arg : string)
| CallShowMissingTech (o : obj)
| CallShowUnused (o : obj).

(** What [open(file, 'rU').read()] does. *)
Inductive read_result : Type :=
| ReadOk (text : string)
| ReadIOError (msg : string)       (* raises IOError; [msg] is its [str] *)
| ReadRaises (exn : string)        (* raises any other exception *).

(** The keys of [self.config] that [dah_doctor] reads itself. *)
Record config : Type := mkConfig {
  verbose : bool;
  show_unused : bool
}.

(** The dictionary [info] of one match. *)
Record info : Type := mkInfo {
  lineno : Z;
  offset : Z;
  func : string;
  content : string
}.

(** [self._errorstring % info]. *)
Definition errorstring (i : info) : string :=
  "Can not found element ``" ++ content i ++ "'' for function " ++ func i
  ++ " at line " ++ format_d (lineno i) ++ " offset " ++ format_d (offset i).

(** [d[key] = value] on a dictionary kept in insertion order. *)
Fixpoint dict_set (key value : string) (d : list (string * string))
    : list (string * string) :=
  match d with
  | [] => [(key, value)]
  | (k, v) :: d' =>
      if String.eqb k key then (k, value) :: d'
      else (k, v) :: dict_set key value d'
  end.

(** The regex template of the secondary scan after [.format(category)],
    as the text before and the text after its [%s]. *)
Definition indent16 : string := "                ".

Definition regex_template (category : string) : string * string :=
  (String newline indent16 ++ "(?P<" ++ category ++ ">",
   ")" ++ String newline indent16).

(** The body of [for name in data]: [rname] grows by every name,
    [uniqList] by the names it does not hold yet. *)
Definition add_name (acc : string * list string) (name : string)
    : string * list string :=
  let (rname, uniqList) := acc in
  let name := replace_space "\s" name in
  let rname := rname ++ name ++ "|" in
  let uniqList :=
    if existsb (String.eqb name) uniqList then uniqList
    else (uniqList ++ [name])%list in
  (rname, uniqList).

(** [regex % rname[:-1]] after the loop over [data]; [uniqList] is not
    read. *)
Definition regex_text (category : string) (data : list string) : string :=
  let (rname, uniqList) := fold_left add_name data (EmptyString, []) in
  let (before, after) := regex_template category in
  before ++ drop_last rname ++ after.

(** [tocheck], each object with its key. *)
Definition tocheck : list (obj * string) :=
  [(Fleetdata, "fleet"); (Udata, "unidiff");
   (Shipdata, "ship"); (Outfitdata, "outfit")].

Section Doctor.

Context {R : Type} {RD : Reader R}.

Record readers : Type := mkReaders {
  fleetdata : R;
  shipdata : R;
  outfitdata : R;
  udata : R
}.

Definition get_obj (o : obj) (rs : readers) : R :=
  match o with
  | Fleetdata => fleetdata rs
  | Udata => udata rs
  | Shipdata => shipdata rs
  | Outfitdata => outfitdata rs
  end.

Definition set_obj (o : obj) (r : R) (rs : readers) : readers :=
  match o with
  | Fleetdata => mkReaders r (shipdata rs) (outfitdata rs) (udata rs)
  | Udata => mkReaders (fleetdata rs) (shipdata rs) (outfitdata rs) r
  | Shipdata => mkReaders (fleetdata rs) r (outfitdata rs) (udata rs)
  | Outfitdata => mkReaders (fleetdata rs) (shipdata rs) r (udata rs)
  end.

(** The variables of [dah_doctor] that change during the run, and the
    events so far. *)
Record state : Type := mkState {
  regs : readers;
  errors : list string;
  line : list (string * string);
  trace : list event
}.

(** How a run ends: it returns, an exception leaves it, or it met a
    secondary pattern that [re_compile] does not read. *)
Inductive outcome : Type :=
| Done (st : state)
| Raised (exn : string) (st : state)
| Unsupported (st : state).

Definition emit (evs : list event) (st : state) : state :=
  mkState (regs st) (errors st) (line st) (trace st ++ evs).

Definition set_errors (es : list string) (st : state) : state :=
  mkState (regs st) es (line st) (trace st).

Definition set_line (d : list (string * string)) (st : state) : state :=
  mkState (regs st) (errors st) d (trace st).

Definition set_regs (rs : readers) (st : state) : state :=
  mkState rs (errors st) (line st) (trace st).

(** [o.find(arg)]. *)
Definition call_find (o : obj) (arg : string) (st : state) : bool * state :=
  let (b, r) := find arg (get_obj o (regs st)) in
  (b, emit [CallFind o arg] (set_regs (set_obj o r (regs st)) st)).

(** [o.set_unknown(arg)]. *)
Definition call_set_unknown (o : obj) (arg : string) (st : state) : state :=
  emit [CallSetUnknown o arg]
    (set_regs (set_obj o (set_unknown arg (get_obj o (regs st))) (regs st)) st).

(** [if info['func'] == label: if not o.find(info['content']): this = True]. *)
Definition lookup (label : string) (o : obj) (i : info)
    (p : state * bool) : state * bool :=
  let (st, this) := p in
  if String.eqb (func i) label then
    let (b, st') := call_find o (content i) st in
    (st', if negb b then true else this)
  else (st, this).

(** [info] for one match of [search_cobj]. *)
Definition info_of (text : string) (m : match_obj) : info :=
  let (lineno, offset) := lineNumber text (m_start m) in
  mkInfo lineno offset (drop_last (group m "func")) (group m "content").

(** The body of [for match in search_cobj.finditer(line[file])]; [this] is
    false on entry. *)
Definition check_match (text : string) (st : state) (m : match_obj) : state :=
  let i := info_of text m in
  let p := lookup "pilot.add" Fleetdata i (st, false) in
  let p := lookup "addOutfit" Outfitdata i p in
  let p := lookup "player.addShip" Shipdata i p in
  let p := lookup "diff.apply" Udata i p in
  let (st', this) := p in
  if this then set_errors (errors st' ++ [errorstring i]) st' else st'.

(** [if len(errors) > 0: print each to stderr; errors = list()]. *)
Definition flush (st : state) : state :=
  if (0 <? List.length (errors st))%nat
  then set_errors [] (emit (map Stderr (errors st)) st)
  else st.

Definition notice (b : bool) (s : string) (st : state) : state :=
  if b then emit [Stdout s] st else st.

(** The body of [for file in self.luaScripts]. *)
Definition process_file (cfg : config) (fs : string -> read_result)
    (file : string) (st : state) : outcome :=
  let st := notice (verbose cfg) ("Processing file " ++ file ++ "...") st in
  let st := flush st in
  match fs file with
  | ReadOk text =>
      let st := set_line (dict_set file text (line st)) st in
      let st := fold_left (check_match text) (finditer search_cobj text) st in
      Done (notice (verbose cfg) "DONE" st)
  | ReadIOError msg =>
      let st := emit [Stderr ("I/O error: " ++ msg)] st in
      Done (notice (verbose cfg) "DONE" st)
  | ReadRaises exn => Raised exn st
  end.

Fixpoint primary_scan (cfg : config) (fs : string -> read_result)
    (files : list string) (st : state) : outcome :=
  match files with
  | [] => Done st
  | file :: rest =>
      match process_file cfg fs file st with
      | Done st' => primary_scan cfg fs rest st'
      | stopped => stopped
      end
  end.

(** [unused_data]: the categories with something unused, in the order of
    [tocheck]. *)
Definition unused_data (rs : readers) : list (string * list string) :=
  flat_map (fun ok : obj * string =>
              let tmp := get_unused (get_obj (fst ok) rs) in
              if (0 <? List.length tmp)%nat then [(snd ok, tmp)] else [])
           tocheck.

(** [mcobj]: one compiled pattern for each category of [unused_data]. *)
Fixpoint build_mcobj (ud : list (string * list string))
    : option (list (string * regex)) :=
  match ud with
  | [] => Some []
  | (category, data) :: ud' =>
      match re_compile (regex_text category data) with
      | None => None
      | Some cobj =>
          match build_mcobj ud' with
          | None => None
          | Some rest => Some ((category, cobj) :: rest)
          end
      end
  end.

(** [for obj, key in tocheck: if key == category: obj.set_unknown(name)]. *)
Definition mark_unknown (category : string) (st : state) (m : match_obj)
    : state :=
  fold_left (fun st (ok : obj * string) =>
               if String.eqb (snd ok) category
               then call_set_unknown (fst ok) (group m category) st
               else st)
            tocheck st.

(** [for (category, cobj) in mcobj.items(): for match in
    cobj.finditer(content): ...]. *)
Definition rescan (mcobj : list (string * regex)) (st : state)
    (fc : string * string) : state :=
  fold_left (fun st (cc : string * regex) =>
               fold_left (mark_unknown (fst cc))
                         (finditer (snd cc) (snd fc)) st)
            mcobj st.

(** [for (file, content) in line.items(): ...]. *)
Definition secondary_scan (mcobj : list (string * regex)) (st : state)
    : state :=
  fold_left (rescan mcobj) (line st) st.

(** The calls after the secondary scan. *)
Definition report (cfg : config) (st : state) : state :=
  let st := emit [CallShowMissingTech Outfitdata;
                  CallShowMissingTech Shipdata] st in
  if show_unused cfg
  then emit [CallShowUnused Outfitdata; CallShowUnused Shipdata;
             CallShowUnused Fleetdata; CallShowUnused Udata] st
  else st.

(** What follows the loop over the files, from [print('Verifying ...')]. *)
Definition verify (cfg : config) (st : state) : outcome :=
  let st := emit [Stdout "Verifying ..."] st in
  let ud := unused_data (regs st) in
  if (0 <? List.length ud)%nat then
    match build_mcobj ud with
    | None => Unsupported st
    | Some mcobj => Done (report cfg (secondary_scan mcobj st))
    end
  else Done (report cfg st).

(** The state before the loop over the files: [errors = list()],
    [line = dict()], and the readers as their constructors leave them. *)
Definition init_state (rs : readers) : state :=
  mkState rs [] []
    [Stdout "Preprocess valitation :"; Stdout "Blind check now ..."].

(** [dah_doctor]. *)
Definition dah_doctor (cfg : config) (fs : string -> read_result)
    (luaScripts : list string) (rs : readers) : outcome :=
  match primary_scan cfg fs luaScripts (init_state rs) with
  | Done st' => verify cfg st'
  | stopped => stopped
  end.

End Doctor.

Arguments readers R : clear implicits.
Arguments state R : clear implicits.
Arguments outcome R : clear implicits.

(** ** Notions used by the statements *)

(** The length of the longest prefix of [s] without a double quote. *)
Fixpoint span_len (s : string) : nat :=
  match s with
  | String c s' => if not_dquote c then S (span_len s') else 0
  | EmptyString => 0
  end.

(** What [search_cobj] matches at the head of a text: a keyword, a double
    quote, and the longest run of characters other than the double quote,
    which is not empty. *)
Definition call_at (s kw arg rest : string) : Prop :=
  In kw keywords /\
  s = kw ++ String dquote (arg ++ rest) /\
  arg <> EmptyString /\
  mem dquote arg = false /\
  (rest = EmptyString \/ exists rest', rest = String dquote rest').

(** The part of [search_cobj] after the group [func], on the rest [s'] of
    the text [s]. *)
Definition after_func (s s' : string) (g : groups) : option (nat * groups) :=
  exec (Cat (Lit (String dquote EmptyString))
            (Group "content" (ClsPlus not_dquote))) s' g
       (fun t g' => Some (String.length s - String.length t, g')).

(** The number of [c] in [s]. *)
Fixpoint occurrences (c : ascii) (s : string) : nat :=
  match s with
  | EmptyString => 0
  | String a s' => (if Ascii.eqb a c then 1 else 0) + occurrences c s'
  end.

(** The index of the last [c] of [s], when the head of [s] has index [i]. *)
Fixpoint last_index (c : ascii) (s : string) (i : nat) : option nat :=
  match s with
  | EmptyString => None
  | String a s' =>
      match last_index c s' (S i) with
      | Some p => Some p
      | None => if Ascii.eqb a c then Some i else None
      end
  end.

(** The index of the line feed nearest before [start], if there is one. *)
Definition nearest_newline (text : string) (start : nat) : option nat :=
  last_index newline (take start text) 0.

(** The column as the sentence on line and column words it: the distance to
    the match from the nearest line feed before it, or from the start of the
    text when no line feed comes before. *)
Definition claimed_column (text : string) (start : nat) : Z :=
  match nearest_newline text start with
  | Some p => Z.of_nat start - Z.of_nat p
  | None => Z.of_nat start - 0
  end.

(** A text in double quotes. *)
Definition quoted (s : string) : string :=
  String dquote s ++ String dquote EmptyString.

(** The text of the line-and-column example: a, b and a call, on three
    lines. *)
Definition example_text : string :=
  "a" ++ String newline ("b" ++ String newline ("pilot.add(" ++ quoted "X" ++ ")")).

(** The reader that a call keyword, without its parenthesis, is looked up
    in: the four tests of [check_match] as one function. *)
Definition owner (label : string) : option obj :=
  if String.eqb label "pilot.add" then Some Fleetdata
  else if String.eqb label "addOutfit" then Some Outfitdata
  else if String.eqb label "player.addShip" then Some Shipdata
  else if String.eqb label "diff.apply" then Some Udata
  else None.

(** The call of [find] that one match leads to. *)
Definition site_events (text : string) (m : match_obj) : list event :=
  match owner (func (info_of text m)) with
  | Some o => [CallFind o (content (info_of text m))]
  | None => []
  end.

(** The progress notices of one file. *)
Definition progress (cfg : config) (file : string) : list event :=
  if verbose cfg then [Stdout ("Processing file " ++ file ++ "...")] else [].

Definition done (cfg : config) : list event :=
  if verbose cfg then [Stdout "DONE"] else [].

(** What processing [file] emits after the pending diagnostics. *)
Definition file_events (cfg : config) (fs : string -> read_result)
    (file : string) : list event :=
  match fs file with
  | ReadOk text =>
      (flat_map (site_events text) (finditer search_cobj text) ++ done cfg)%list
  | ReadIOError msg => (Stderr ("I/O error: " ++ msg) :: done cfg)%list
  | ReadRaises _ => []
  end.

(** The lines on standard error among some events. *)
Fixpoint stderr_lines (evs : list event) : list string :=
  match evs with
  | [] => []
  | Stderr l :: evs' => l :: stderr_lines evs'
  | _ :: evs' => stderr_lines evs'
  end.

Section DoctorNotions.

Context {R : Type} {RD : Reader R}.

(** The state a run ends in. *)
Definition final (o : outcome R) : state R :=
  match o with
  | Done st => st
  | Raised _ st => st
  | Unsupported st => st
  end.

(** The diagnostics of the matches [ms] of [text], from the readers [rs]:
    one for each match whose [find] is false. *)
Fixpoint diagnose (text : string) (rs : readers R) (ms : list match_obj)
    : list string :=
  match ms with
  | [] => []
  | m :: ms' =>
      let i := info_of text m in
      match owner (func i) with
      | Some o =>
          let (b, r) := find (content i) (get_obj o rs) in
          ((if b then [] else [errorstring i])
           ++ diagnose text (set_obj o r rs) ms')%list
      | None => diagnose text rs ms'
      end
  end.

(** The readers after the calls of [find] for [ms]. *)
Fixpoint readers_after (text : string) (rs : readers R) (ms : list match_obj)
    : readers R :=
  match ms with
  | [] => rs
  | m :: ms' =>
      let i := info_of text m in
      match owner (func i) with
      | Some o =>
          readers_after text
            (set_obj o (snd (find (content i) (get_obj o rs))) rs) ms'
      | None => readers_after text rs ms'
      end
  end.

(** A step that leaves the pending list and the cache alone and prints
    nothing on standard error. *)
Definition silent (st st' : state R) : Prop :=
  errors st' = errors st /\ line st' = line st /\
  stderr_lines (trace st') = stderr_lines (trace st).

(** The diagnostics that scanning [file] leaves pending. *)
Definition file_diagnostics (fs : string -> read_result) (file : string)
    (rs : readers R) : list string :=
  match fs file with
  | ReadOk text => diagnose text rs (finditer search_cobj text)
  | _ => []
  end.

End DoctorNotions.

(** A diagnostic of the scanned files, in the words of [_errorstring]. *)
Definition is_diagnostic (fs : string -> read_result) (files : list string)
    (l : string) : Prop :=
  exists file text m label,
    In file files /\ fs file = ReadOk text /\
    In m (finditer search_cobj text) /\
    In (label ++ "(") keywords /\ group m "func" = label ++ "(" /\
    l = "Can not found element ``" ++ group m "content"
        ++ "'' for function " ++ label
        ++ " at line " ++ format_d (fst (lineNumber text (m_start m)))
        ++ " offset " ++ format_d (snd (lineNumber text (m_start m))).

(** The warning for a file that could not be read. *)
Definition is_io_warning (fs : string -> read_result) (files : list string)
    (l : string) : Prop :=
  exists file msg,
    In file files /\ fs file = ReadIOError msg /\ l = "I/O error: " ++ msg.

(** The diagnostic line as the sentence on the output words it, with the
    argument between two apostrophes. *)
Definition claimed_line (i : info) : string :=
  "Can not found element '" ++ content i ++ "' for function " ++ func i
  ++ " at line " ++ format_d (lineno i) ++ " offset " ++ format_d (offset i).

(** ** Inputs of the examples *)

(** A call whose quote is never closed. *)
Definition unclosed_text : string := "pilot.add(" ++ String dquote "abc".

(** A call at the very start of a text. *)
Definition first_line_text : string := "pilot.add(" ++ quoted "X" ++ ")".

Definition outfit_text : string := "x = addOutfit(" ++ quoted "Laser Cannon" ++ ")".

Definition outfit_match : match_obj :=
  mkMatch 4 27 [("content", "Laser Cannon"); ("func", "addOutfit(")].

(** Two scripts and a path that cannot be read. *)
Definition example_fs (file : string) : read_result :=
  if String.eqb file "a.lua" then
    ReadOk ("pilot.add(" ++ quoted "Nope" ++ ")" ++ String newline
            ("player.addShip(" ++ quoted "Llama" ++ ")"))
  else if String.eqb file "b.lua" then ReadIOError "No such file: b.lua"
  else if String.eqb file "c.lua" then
    ReadOk ("x" ++ String newline ("diff.apply(" ++ quoted "d1" ++ ") -- Lancelot"))
  else ReadRaises "UnicodeDecodeError".

Definition example_readers : readers registry :=
  mkReaders [mkEntity "Pirate Hyena" 0]
            [mkEntity "Llama" 0; mkEntity "Lancelot" 0] [] [].

Definition quiet : config := mkConfig false false.

(** One script with one call for a fleet that no data file defines. *)
Definition lonely_fs (file : string) : read_result :=
  if String.eqb file "a.lua" then ReadOk ("pilot.add(" ++ quoted "Nope" ++ ")")
  else ReadIOError "No such file".

Definition no_readers : readers registry := mkReaders [] [] [] [].

(** The keyword of a call, without its parenthesis, and the reader that the
    call is looked up in. *)
Definition call_kinds : list (string * obj) :=
  [("pilot.add", Fleetdata); ("addOutfit", Outfitdata);
   ("player.addShip", Shipdata); ("diff.apply", Udata)].

Definition ship_text : string :=
  "player.addShip(" ++ quoted "Llama" ++ ") player.addShip(" ++ quoted "Hawking" ++ ")".

Definition hawking_match : match_obj :=
  mkMatch 24 47 [("content", "Hawking"); ("func", "player.addShip(")].


(** One script that names a ship in a comment. *)
Definition comment_text : string :=
  "player.addShip(" ++ quoted "Llama" ++ ") -- not the Lancelot".

Definition comment_fs (file : string) : read_result :=
  if String.eqb file "a.lua" then ReadOk comment_text
  else ReadIOError "No such file".

Definition two_ships : readers registry :=
  mkReaders [] [mkEntity "Llama" 0; mkEntity "Lancelot" 0] [] [].

(** The state in which the secondary scan of that run begins. *)
Definition comment_state : state registry :=
  final (primary_scan quiet comment_fs ["a.lua"] (init_state two_ships)).

Definition lancelot_match : match_obj := mkMatch 35 43 [("ship", "Lancelot")].

Definition lancelot_cobj : regex :=
  Group "ship"
    (Cat (Lit "L") (Cat (Lit "a") (Cat (Lit "n") (Cat (Lit "c")
    (Cat (Lit "e") (Cat (Lit "l") (Cat (Lit "o") (Lit "t")))))))).



(** [n1|n2|...|nk]. *)
Fixpoint alternation (names : list string) : string :=
  match names with
  | [] => EmptyString
  | [n] => n
  | n :: rest => n ++ "|" ++ alternation rest
  end.

(** Two fleets whose names differ only by how the space is written, once
    as a space and once as a backslash and an s. *)
Definition alike_fleets : readers registry :=
  mkReaders [mkEntity "Pirate Shark" 0; mkEntity "Pirate\sShark" 0] [] [] [].

(** One fleet, and a script that writes its name with a tabulation in the
    place of the space. *)
Definition tab_text : string := "escort: Pirate" ++ String "009"%char "Shark".

Definition tab_fs (file : string) : read_result :=
  if String.eqb file "a.lua" then ReadOk tab_text
  else ReadIOError "No such file".

Definition one_fleet : readers registry :=
  mkReaders [mkEntity "Pirate Shark" 0] [] [] [].

(** A call inside the argument of a call whose quote opens before it. *)
Definition nested_text : string :=
  "pilot.add(" ++ String dquote ("addOutfit(" ++ quoted "x" ++ ")").

(** Start, end, keyword and argument of a match. *)
Definition site (m : match_obj) : nat * nat * string * string :=
  (m_start m, m_end m, group m "func", group m "content").

(** ** The list of scripts: [sanitizer.__init__] and its helpers *)

(** [filename[-3:] == "lua"]. *)
Definition ends_lua (filename : string) : bool :=
  String.eqb (drop (String.length filename - 3) filename) "lua".

(** [b.startswith('/')] and [a.endswith('/')]. *)
Definition starts_with_sep (b : string) : bool :=
  match b with
  | String c _ => Ascii.eqb c "/"
  | EmptyString => false
  end.

Fixpoint ends_with_sep (a : string) : bool :=
  match a with
  | EmptyString => false
  | String c EmptyString => Ascii.eqb c "/"
  | String _ a' => ends_with_sep a'
  end.

(** [os.path.join(a, b)] of [posixpath]: an absolute [b] replaces [a];
    otherwise [b] follows [a], after a slash unless [a] is empty or ends
    with one. *)
Definition path_join (a b : string) : string :=
  if starts_with_sep b then b
  else
    match a with
    | EmptyString => a ++ b
    | _ => if ends_with_sep a then a ++ b else a ++ "/" ++ b
    end.

(** [addLuaFile(files, root)], on the list [self.luaScripts]. *)
Definition addLuaFile (files : list string) (root : string)
    (luaScripts : list string) : list string :=
  fold_left (fun scripts filename =>
               if ends_lua filename
               then (scripts ++ [path_join root filename])%list
               else scripts)
            files luaScripts.

(** What [os.walk(top)] yields: the triples (root, directories, files). *)
Definition walk_result : Type := list (string * list string * list string).

(** [for root, dir, files in os.walk(top): self.addLuaFile(files, root)]. *)
Definition add_walked (tree : walk_result) (luaScripts : list string)
    : list string :=
  fold_left (fun scripts (t : string * list string * list string) =>
               addLuaFile (snd t) (fst (fst t)) scripts)
            tree luaScripts.

(** An element of a parsed XML document: its tag, its text if it has some,
    and its children. *)
#[warnings="-register-all"] Inductive element : Type :=
| Element (tag : string) (text : option string) (children : list element).

Definition tag_of (e : element) : string :=
  match e with Element t _ _ => t end.

Definition text_of (e : element) : option string :=
  match e with Element _ t _ => t end.

Definition children_of (e : element) : list element :=
  match e with Element _ _ c => c end.

(** [e.findall(tag)] for a plain tag: the children of [e] with this tag. *)
Definition findall (tag : string) (e : element) : list element :=
  filter (fun c => String.eqb (tag_of c) tag) (children_of e).

(** What [ET.parse(file)] does. *)
Inductive xml_result : Type :=
| XmlOk (root : element)
| XmlRaises (exn : string).

(** A result or the exception that was raised. *)
Inductive result (A : Type) : Type :=
| Ok (a : A)
| Raise (exn : string).

Arguments Ok {A} a.
Arguments Raise {A} exn.

(** [for lf in mission.findall('lua'): lf = os.path.join(missionpath,
    lf.text + '.lua'); self.luaScripts.append(lf)]; an element without text
    has [None] as text, and [None + '.lua'] raises [TypeError]. *)
Fixpoint add_lua_elements (missionpath : string) (lfs : list element)
    (luaScripts : list string) : result (list string) :=
  match lfs with
  | [] => Ok luaScripts
  | lf :: lfs' =>
      match text_of lf with
      | None => Raise "TypeError"
      | Some text =>
          add_lua_elements missionpath lfs'
            (luaScripts ++ [path_join missionpath (text ++ ".lua")])%list
      end
  end.

(** [for mission in missionxml.findall('mission'): ...]. *)
Fixpoint add_missions (missionpath : string) (missions : list element)
    (luaScripts : list string) : result (list string) :=
  match missions with
  | [] => Ok luaScripts
  | mission :: missions' =>
      match add_lua_elements missionpath (findall "lua" mission) luaScripts with
      | Ok scripts => add_missions missionpath missions' scripts
      | Raise exn => Raise exn
      end
  end.

(** The keyword arguments of [sanitizer(...)]: the keys that the class
    reads, [datpath] being optional. *)
Record settings : Type := mkSettings {
  basepath : string;
  missionpath : string;
  use : string;
  datpath : option string;
  flags : config
}.

(** The disk as the constructor sees it. *)
Record disk : Type := mkDisk {
  walk : string -> walk_result;
  parse : string -> xml_result
}.

(** The object under construction: [self.config], [self.luaScripts], and
    the lines printed so far. *)
Record sanitizer : Type := mkSanitizer {
  config_of : settings;
  luaScripts : list string;
  printed : list string
}.

(** [dirtyfiles_from_directory]. *)
Definition dirtyfiles_from_directory (d : disk) (s : sanitizer) : sanitizer :=
  mkSanitizer (config_of s)
    (add_walked (walk d (missionpath (config_of s))) (luaScripts s))
    (printed s ++ ["Compiling file list like a wild viking ..."; "DONE"])%list.

(** [dirtyfiles_from_xml]; an exception leaves the constructor. *)
Definition dirtyfiles_from_xml (d : disk) (s : sanitizer) : result sanitizer :=
  let file := path_join (basepath (config_of s)) "dat/mission.xml" in
  match parse d file with
  | XmlRaises exn => Raise exn
  | XmlOk missionxml =>
      match add_missions (missionpath (config_of s))
              (findall "mission" missionxml) (luaScripts s) with
      | Raise exn => Raise exn
      | Ok scripts =>
          Ok (mkSanitizer (config_of s) scripts
                (printed s ++ ["Compiling file list ..."; "DONE"])%list)
      end
  end.

(** The two walks that end [__init__]. *)
Definition add_scripts_and_events (d : disk) (s : sanitizer) : sanitizer :=
  let scripts :=
    add_walked (walk d (basepath (config_of s) ++ "/scripts/")) (luaScripts s) in
  let events :=
    add_walked (walk d (basepath (config_of s) ++ "/dat/events/")) scripts in
  mkSanitizer (config_of s) events
    (printed s ++ ["Compiling script files..."; "DONE";
                   "Compiling events files..."; "DONE"])%list.

(** [sanitizer.__init__], from its keyword arguments. *)
Definition sanitizer_init (args : settings) (d : disk) : result sanitizer :=
  let args :=
    match datpath args with
    | Some _ => args
    | None =>
        mkSettings (basepath args) (missionpath args) (use args)
          (Some (path_join (basepath args) "dat/")) (flags args)
    end in
  let s := mkSanitizer args [] [] in
  let listed :=
    if String.eqb (use args) "missionxml" then dirtyfiles_from_xml d s
    else if String.eqb (use args) "rawfiles"
         then Ok (dirtyfiles_from_directory d s)
         else Ok s in
  match listed with
  | Ok s' => Ok (add_scripts_and_events d s')
  | Raise exn => Raise exn
  end.


(** ** Notions used by the further properties *)

Section RunNotions.

Context {R : Type} {RD : Reader R}.

(** What the files give for standard error, in order: the diagnostics of a
    file that is read, the warning of a file that is not; nothing more once
    a file raises another exception. *)
Fixpoint outputs (fs : string -> read_result) (files : list string)
    (rs : readers R) : list string :=
  match files with
  | [] => []
  | file :: rest =>
      match fs file with
      | ReadOk text =>
          let ms := finditer search_cobj text in
          (diagnose text rs ms
           ++ outputs fs rest (readers_after text rs ms))%list
      | ReadIOError msg => ("I/O error: " ++ msg) :: outputs fs rest rs
      | ReadRaises _ => []
      end
  end.

End RunNotions.

(** The events other than the lines on standard output. *)
Fixpoint audible (evs : list event) : list event :=
  match evs with
  | [] => []
  | Stdout _ :: evs' => audible evs'
  | e :: evs' => e :: audible evs'
  end.

(** The calls of the readers among some events. *)
Definition is_call (e : event) : bool :=
  match e with
  | Stdout _ | Stderr _ => false
  | _ => true
  end.

(** Two states that differ at most by lines on standard output. *)
Definition alike {R : Type} (st1 st2 : state R) : Prop :=
  regs st1 = regs st2 /\ errors st1 = errors st2 /\ line st1 = line st2 /\
  audible (trace st1) = audible (trace st2).

(** How a run ends: [None] when it returns, the exception when one leaves
    it. *)
Definition ending {R : Type} (o : outcome R) : option (option string) :=
  match o with
  | Done _ => None
  | Raised exn _ => Some (Some exn)
  | Unsupported _ => Some None
  end.

(** [a] stands somewhere in [text]. *)
Definition occurs_in (a text : string) : Prop :=
  exists pre post, text = pre ++ a ++ post.

Section MarksNotions.

Context {R : Type} {RD : Reader R}.



End MarksNotions.

(** ** Names of ordinary characters *)

(** A character that a name may hold for its pattern to mean the name: a
    space, or a character that is neither white space nor special in a
    verbose pattern. *)
Definition plain_char (c : ascii) : bool :=
  Ascii.eqb c " " || (negb (is_verbose_ws c) && negb (is_special c)).

Fixpoint all_plain (n : string) : bool :=
  match n with
  | EmptyString => true
  | String c n' => plain_char c && all_plain n'
  end.

Definition plain_name (n : string) : Prop :=
  n <> EmptyString /\ all_plain n = true.

(** The atom that the pattern of a name has for one of its characters. *)
Definition atom_of (c : ascii) : regex :=
  if Ascii.eqb c " " then Cls is_space else Lit (String c EmptyString).

Fixpoint atoms_of (n : string) : list regex :=
  match n with
  | EmptyString => []
  | String c n' => atom_of c :: atoms_of n'
  end.

Definition name_regex (n : string) : regex := seq_of (atoms_of n).

(** The character [a] of a text stands for the character [c] of a name:
    any white space for a space, the character itself otherwise. *)
Definition char_ok (c a : ascii) : bool :=
  if Ascii.eqb c " " then is_space a else Ascii.eqb c a.

(** The rest of [s] after a prefix that spells the name [n]. *)
Fixpoint spelled (n s : string) : option string :=
  match n with
  | EmptyString => Some s
  | String c n' =>
      match s with
      | String a s' => if char_ok c a then spelled n' s' else None
      | EmptyString => None
      end
  end.

(** The first of the names that is spelled at the head of [s]. *)
Fixpoint first_spelled (names : list string) (s : string)
    : option (string * string) :=
  match names with
  | [] => None
  | n :: rest =>
      match spelled n s with
      | Some s' => Some (n, s')
      | None => first_spelled rest s
      end
  end.

(** The name [n] is spelled somewhere in [text]. *)
Definition spelled_in (n text : string) : Prop :=
  exists p, p <= String.length text /\ spelled n (drop p text) <> None.

(** [set_unknown] was called with [n] on the reader [o]. *)
Definition called {R : Type} (o : obj) (n : string) (st : state R) : Prop :=
  In (CallSetUnknown o n) (trace st).

(** ** Notions for the list of scripts *)

(** The paths that [addLuaFile] takes from what a walk yields. *)
Definition lua_paths (tree : walk_result) : list string :=
  flat_map (fun t : string * list string * list string =>
              map (path_join (fst (fst t))) (filter ends_lua (snd t)))
           tree.

(** The texts of some elements, if each of them has one. *)
Fixpoint texts_of (lfs : list element) : option (list string) :=
  match lfs with
  | [] => Some []
  | lf :: rest =>
      match text_of lf, texts_of rest with
      | Some t, Some ts => Some (t :: ts)
      | _, _ => None
      end
  end.

(** The [lua] elements of the [mission] elements, in document order. *)
Definition lua_elements (missions : list element) : list element :=
  flat_map (findall "lua") missions.

(** The scripts of the missions, as the value of [use] has them listed. *)
Definition listed_missions (args : settings) (d : disk) : result (list string) :=
  if String.eqb (use args) "missionxml" then
    match parse d (path_join (basepath args) "dat/mission.xml") with
    | XmlRaises exn => Raise exn
    | XmlOk root =>
        match texts_of (lua_elements (findall "mission" root)) with
        | Some ts =>
            Ok (map (fun t => path_join (missionpath args) (t ++ ".lua")) ts)
        | None => Raise "TypeError"
        end
    end
  else if String.eqb (use args) "rawfiles"
       then Ok (lua_paths (walk d (missionpath args)))
       else Ok [].

Definition result_map {A B : Type} (f : A -> B) (r : result A) : result B :=
  match r with
  | Ok a => Ok (f a)
  | Raise exn => Raise exn
  end.

(** A small tree of scripts and its mission list. *)
Definition example_root : element :=
  Element "Missions" None
    [Element "mission" None
       [Element "lua" (Some "neutral/cargo") []; Element "avail" None []];
     Element "comment" (Some "no mission") [];
     Element "mission" None [Element "lua" (Some "/opt/extra") []]].

Definition example_disk : disk :=
  mkDisk
    (fun top =>
       if String.eqb top "/naev/dat/missions" then
         [("/naev/dat/missions", ["neutral"], ["readme.txt"; "intro.lua"]);
          ("/naev/dat/missions/neutral", [], ["cargo.lua"; "notes"; "oldlua"])]
       else if String.eqb top "/naev/scripts/" then
         [("/naev/scripts/", [], ["jumpdist.lua"; "ua"])]
       else [])
    (fun file =>
       if String.eqb file "/naev/dat/mission.xml" then XmlOk example_root
       else XmlRaises "FileNotFoundError").

Definition example_args (mode : string) : settings :=
  mkSettings "/naev" "/naev/dat/missions" mode None quiet.

(** ** Notions for what follows the loop *)

(** The event of one call of [set_unknown]. *)
Definition mark_event (p : obj * string) : event :=
  CallSetUnknown (fst p) (snd p).

(** The trace grew, from [st0], by calls of [set_unknown] only. *)
Definition grown {R : Type} (st0 st : state R) : Prop :=
  exists marks, trace st = (trace st0 ++ map mark_event marks)%list.

(** The calls that end a run. *)
Definition report_events (cfg : config) : list event :=
  CallShowMissingTech Outfitdata :: CallShowMissingTech Shipdata ::
  (if show_unused cfg
   then [CallShowUnused Outfitdata; CallShowUnused Shipdata;
         CallShowUnused Fleetdata; CallShowUnused Udata]
   else []).



(** * Properties *)

(** ** Strings *)

Lemma append_empty_r (s : string) : s ++ EmptyString = s.
Proof. induction s as [|c s IH]; simpl; [reflexivity | now rewrite IH]. Qed.

Lemma append_assoc (s1 s2 s3 : string) : (s1 ++ s2) ++ s3 = s1 ++ (s2 ++ s3).
Proof. induction s1 as [|c s1 IH]; simpl; [reflexivity | now rewrite IH]. Qed.

Lemma length_append (s1 s2 : string) :
  String.length (s1 ++ s2) = String.length s1 + String.length s2.
Proof. induction s1 as [|c s1 IH]; simpl; [reflexivity | now rewrite IH]. Qed.

Lemma take_append (s1 s2 : string) : take (String.length s1) (s1 ++ s2) = s1.
Proof. induction s1 as [|c s1 IH]; simpl; [now destruct s2 | now rewrite IH]. Qed.

Lemma drop_append (s1 s2 : string) : drop (String.length s1) (s1 ++ s2) = s2.
Proof. induction s1 as [|c s1 IH]; simpl; [reflexivity | exact IH]. Qed.

Lemma take_drop (n : nat) (s : string) : take n s ++ drop n s = s.
Proof.
  revert s; induction n as [|n IH]; intros [|c s]; simpl; try reflexivity.
  now rewrite IH.
Qed.

Lemma length_drop (n : nat) (s : string) :
  String.length (drop n s) = String.length s - n.
Proof.
  revert s; induction n as [|n IH]; intros [|c s]; simpl; try reflexivity.
  apply IH.
Qed.

Lemma length_take (n : nat) (s : string) :
  String.length (take n s) = Nat.min n (String.length s).
Proof.
  revert s; induction n as [|n IH]; intros [|c s]; simpl; try reflexivity.
  now rewrite IH.
Qed.

Lemma drop_drop (n m : nat) (s : string) : drop n (drop m s) = drop (m + n) s.
Proof.
  revert s; induction m as [|m IH]; intros s; simpl; [reflexivity|].
  destruct s as [|c s]; [now destruct n | apply IH].
Qed.

Lemma strip_prefix_spec (p s r : string) :
  strip_prefix p s = Some r <-> s = p ++ r.
Proof.
  revert s; induction p as [|a p IH]; intros s; simpl.
  - split; congruence.
  - destruct s as [|b s]; [split; discriminate|].
    destruct (Ascii.eqb_spec a b) as [->|Hab].
    + rewrite IH. split; congruence.
    + split; [discriminate | congruence].
Qed.

(** ** The matcher *)

Lemma plus_greedy_max {X : Type} (s : string) (k : string -> option X) :
  (forall t, k t <> None) ->
  plus_greedy not_dquote s k =
  if (0 <? span_len s)%nat then k (drop (span_len s) s) else None.
Proof.
  intros Hk; induction s as [|c s IH]; simpl; [reflexivity|].
  destruct (not_dquote c); [|reflexivity].
  rewrite IH. destruct (span_len s) as [|n]; [reflexivity|].
  change (match k (drop (S n) s) with Some x => Some x | None => k s end
          = k (drop (S n) s)).
  destruct (k (drop (S n) s)) eqn:Ek; [reflexivity | now apply Hk in Ek].
Qed.

Lemma span_len_le (s : string) : span_len s <= String.length s.
Proof.
  induction s as [|c s IH]; simpl; [lia|]. destruct (not_dquote c); lia.
Qed.

Lemma span_len_take (s : string) : mem dquote (take (span_len s) s) = false.
Proof.
  induction s as [|c s IH]; simpl; [reflexivity|].
  unfold not_dquote. destruct (Ascii.eqb c dquote) eqn:E; simpl; [reflexivity|].
  now rewrite E.
Qed.

Lemma span_len_drop (s : string) :
  drop (span_len s) s = EmptyString \/
  exists rest, drop (span_len s) s = String dquote rest.
Proof.
  induction s as [|c s IH]; simpl; [now left|].
  unfold not_dquote. destruct (Ascii.eqb_spec c dquote) as [->|Hc]; simpl.
  - right. now exists s.
  - exact IH.
Qed.

Lemma span_len_append (arg rest : string) :
  mem dquote arg = false ->
  rest = EmptyString \/ (exists rest', rest = String dquote rest') ->
  span_len (arg ++ rest) = String.length arg.
Proof.
  intros Hm Hr; induction arg as [|c arg IH]; simpl in *.
  - destruct Hr as [->|[rest' ->]]; reflexivity.
  - apply orb_false_iff in Hm as [Hc Hm]. unfold not_dquote. rewrite Hc. simpl.
    now rewrite IH.
Qed.

Lemma after_func_sound (s s' : string) (g g2 : groups) (len : nat) :
  after_func s s' g = Some (len, g2) ->
  exists arg rest,
    s' = String dquote (arg ++ rest) /\ arg <> EmptyString /\
    mem dquote arg = false /\
    (rest = EmptyString \/ exists rest', rest = String dquote rest') /\
    len = String.length s - String.length rest /\
    g2 = ("content", arg) :: g.
Proof.
  unfold after_func; cbn [exec].
  destruct (strip_prefix _ s') as [t|] eqn:Et; [|discriminate].
  apply strip_prefix_spec in Et; cbn [append] in Et; subst s'.
  rewrite plus_greedy_max by discriminate.
  destruct (Nat.ltb_spec 0 (span_len t)) as [Hpos|]; [|discriminate].
  intros H; injection H as <- <-.
  exists (take (span_len t) t), (drop (span_len t) t).
  pose proof (span_len_le t) as Hle.
  rewrite take_drop.
  split; [reflexivity|].
  split; [destruct t; [inversion Hpos | simpl in *;
          destruct (not_dquote a); [discriminate | inversion Hpos]]|].
  split; [apply span_len_take|].
  split; [apply span_len_drop|].
  split; [reflexivity|].
  rewrite length_drop.
  replace (String.length t - (String.length t - span_len t))
    with (span_len t) by lia.
  reflexivity.
Qed.

Lemma after_func_complete (s arg rest : string) (g : groups) :
  arg <> EmptyString -> mem dquote arg = false ->
  rest = EmptyString \/ (exists rest', rest = String dquote rest') ->
  after_func s (String dquote (arg ++ rest)) g =
  Some (String.length s - String.length rest, ("content", arg) :: g).
Proof.
  intros Hne Hm Hr. unfold after_func; cbn [exec].
  replace (strip_prefix _ _) with (Some (arg ++ rest))
    by (symmetry; now apply strip_prefix_spec).
  rewrite plus_greedy_max by discriminate.
  rewrite (span_len_append _ _ Hm Hr).
  destruct arg as [|c arg]; [congruence|].
  cbn [String.length Nat.ltb Nat.leb].
  change (S (String.length arg)) with (String.length (String c arg)).
  rewrite drop_append, length_append.
  replace (_ + _ - _) with (String.length (String c arg)) by lia.
  now rewrite take_append.
Qed.

Lemma match_at_search_cobj (s : string) :
  match_at search_cobj s =
  exec (Alt (Lit "pilot.add(")
       (Alt (Lit "player.addShip(")
       (Alt (Lit "addOutfit(")
            (Lit "diff.apply(")))) s []
    (fun s' g =>
       after_func s s'
         (("func", take (String.length s - String.length s') s) :: g)).
Proof. reflexivity. Qed.

Lemma match_at_sound (s : string) (len : nat) (g : groups) :
  match_at search_cobj s = Some (len, g) ->
  exists kw arg rest,
    call_at s kw arg rest /\
    len = String.length kw + 1 + String.length arg /\
    g = [("content", arg); ("func", kw)].
Proof.
  rewrite match_at_search_cobj.
  assert (branch : forall kw,
    In kw keywords ->
    match strip_prefix kw s with
    | Some s' =>
        after_func s s'
          [("func", take (String.length s - String.length s') s)]
    | None => None
    end = Some (len, g) ->
    exists kw arg rest,
      call_at s kw arg rest /\
      len = String.length kw + 1 + String.length arg /\
      g = [("content", arg); ("func", kw)]).
  { intros kw Hkw H.
    destruct (strip_prefix kw s) as [s'|] eqn:E; [|discriminate].
    apply strip_prefix_spec in E.
    apply after_func_sound in H as (arg & rest & -> & Hne & Hm & Hr & -> & ->).
    exists kw, arg, rest. subst s. repeat split; auto.
    - rewrite length_append. simpl. rewrite length_append. lia.
    - rewrite length_append. simpl.
      replace (_ + _ - _) with (String.length kw) by lia.
      now rewrite take_append. }
  cbn [exec].
  repeat match goal with
  | |- match ?e with Some x => Some x | None => _ end = _ -> _ =>
      let E := fresh "E" in
      destruct e eqn:E;
      [ intros H; rewrite H in E;
        refine (branch _ _ E); simpl; tauto | clear E ]
  end.
  intros E. refine (branch _ _ E); simpl; tauto.
Qed.

(** Case analysis on the four keywords. *)
Ltac each_keyword H :=
  simpl in H; destruct H as [<-|[<-|[<-|[<-|[]]]]].

Lemma strip_prefix_append (p t : string) : strip_prefix p (p ++ t) = Some t.
Proof. now apply strip_prefix_spec. Qed.

Lemma match_at_complete (s kw arg rest : string) :
  call_at s kw arg rest ->
  match_at search_cobj s =
  Some (String.length kw + 1 + String.length arg,
        [("content", arg); ("func", kw)]).
Proof.
  intros (Hkw & -> & Hne & Hm & Hr).
  rewrite match_at_search_cobj.
  pose proof (fun s g => after_func_complete s arg rest g Hne Hm Hr) as Haf.
  assert (Hlen : forall k : string,
    String.length (k ++ String dquote (arg ++ rest))
    - String.length (String dquote (arg ++ rest)) = String.length k).
  { intros k. rewrite length_append. lia. }
  assert (Hrest : forall k : string,
    String.length (k ++ String dquote (arg ++ rest)) - String.length rest
    = String.length k + 1 + String.length arg).
  { intros k. rewrite length_append. cbn [String.length].
    rewrite length_append. lia. }
  each_keyword Hkw; cbn [exec];
    repeat first
      [ rewrite strip_prefix_append
      | match goal with
        | |- context [strip_prefix ?a (?b ++ ?t)] =>
            change (strip_prefix a (b ++ t)) with (@None string)
        end ];
    cbv beta iota; rewrite Haf, Hlen, take_append, Hrest; reflexivity.
Qed.

(** ** finditer *)

Lemma finditer_from_spec (r : regex) (s : string) :
  forall pos skip m,
    In m (finditer_from r pos skip s) ->
    exists n len,
      m = mkMatch (pos + n) (pos + n + len) (m_groups m) /\
      skip <= n /\ n <= String.length s /\
      match_at r (drop n s) = Some (len, m_groups m).
Proof.
  induction s as [|c s IH]; intros pos skip m Hin.
  - destruct skip as [|skip]; [|contradiction].
    cbn [finditer_from] in Hin.
    destruct (match_at r EmptyString) as [[len g]|] eqn:E; [|contradiction].
    destruct Hin as [<-|[]].
    exists 0, len. rewrite Nat.add_0_r. cbn [m_groups drop].
    repeat split; auto.
  - destruct skip as [|skip]; cbn [finditer_from] in Hin.
    + destruct (match_at r (String c s)) as [[len g]|] eqn:E.
      * destruct Hin as [<-|Hin].
        -- exists 0, len. rewrite Nat.add_0_r. cbn [m_groups drop String.length].
           repeat split; auto; lia.
        -- apply IH in Hin as (n & l & Hm & Hs & Hn & Hat).
           exists (S n), l. cbn [drop String.length].
           rewrite Nat.add_succ_r. repeat split; auto; lia.
      * apply IH in Hin as (n & l & Hm & Hs & Hn & Hat).
        exists (S n), l. cbn [drop String.length].
        rewrite Nat.add_succ_r. repeat split; auto; lia.
    + apply IH in Hin as (n & l & Hm & Hs & Hn & Hat).
      exists (S n), l. cbn [drop String.length].
      rewrite Nat.add_succ_r. repeat split; auto; lia.
Qed.

Lemma finditer_spec (r : regex) (text : string) (m : match_obj) :
  In m (finditer r text) ->
  exists len,
    match_at r (drop (m_start m) text) = Some (len, m_groups m) /\
    m_end m = m_start m + len /\ m_start m <= String.length text.
Proof.
  intros Hin. apply finditer_from_spec in Hin as (n & len & Hm & _ & Hn & Hat).
  exists len. rewrite Hm. cbn [m_start m_end m_groups Nat.add]. auto.
Qed.

(** The first place of a text where the pattern matches gives the first
    match of the scan. *)
Lemma finditer_from_first (r : regex) (len : nat) (g : groups) :
  forall n s pos,
    n <= String.length s ->
    (forall k, k < n -> match_at r (drop k s) = None) ->
    match_at r (drop n s) = Some (len, g) ->
    hd_error (finditer_from r pos 0 s) = Some (mkMatch (pos + n) (pos + n + len) g).
Proof.
  induction n as [|n IH]; intros s pos Hn Hnone Hat.
  - cbn [drop] in Hat. rewrite Nat.add_0_r.
    destruct s; cbn [finditer_from]; rewrite Hat; reflexivity.
  - destruct s as [|c s]; [cbn in Hn; lia|].
    cbn [finditer_from]. pose proof (Hnone 0 (Nat.lt_0_succ n)) as H0.
    cbn [drop] in H0. rewrite H0.
    rewrite Nat.add_succ_r. apply (IH s (S pos)).
    + cbn in Hn. lia.
    + intros k Hk. apply (Hnone (S k)). lia.
    + exact Hat.
Qed.

Example scan_two_calls :
  map site (finditer search_cobj ship_text) =
  [(0, 21, "player.addShip(", "Llama"); (24, 47, "player.addShip(", "Hawking")].
Proof. vm_compute. reflexivity. Qed.

Example scan_nested_call :
  map site (finditer search_cobj nested_text) =
  [(0, 21, "pilot.add(", "addOutfit(")].
Proof. vm_compute. reflexivity. Qed.

Example scan_third_line :
  map (info_of example_text) (finditer search_cobj example_text) =
  [mkInfo 3 1 "pilot.add" "X"].
Proof. vm_compute. reflexivity. Qed.

Example rescan_pattern :
  option_map (fun cobj => map m_groups (finditer cobj comment_text))
    (re_compile (regex_text "ship" ["Lancelot"; "Pirate Shark"])) =
  Some [[("ship", "Lancelot")]].
Proof. vm_compute. reflexivity. Qed.

(** Every match of the primary scan sits on a call. *)
Lemma scan_site (text : string) (m : match_obj) :
  In m (finditer search_cobj text) ->
  exists kw arg rest,
    call_at (drop (m_start m) text) kw arg rest /\
    m_end m = m_start m + String.length kw + 1 + String.length arg /\
    m_groups m = [("content", arg); ("func", kw)].
Proof.
  intros Hin. apply finditer_spec in Hin as (len & Hat & He & _).
  apply match_at_sound in Hat as (kw & arg & rest & Hc & -> & Hg).
  exists kw, arg, rest. split; [exact Hc|]. split; [lia | exact Hg].
Qed.

Lemma keyword_label (kw : string) :
  In kw keywords -> drop_last kw ++ "(" = kw.
Proof. intros H; each_keyword H; reflexivity. Qed.

(** ** lineNumber *)

Lemma count_occurrences (c : ascii) (s : string) (stop : nat) :
  count c s stop = occurrences c (take stop s).
Proof.
  revert s; induction stop as [|n IH]; intros [|a s]; simpl; auto.
Qed.

Lemma rfind_from_last_index (c : ascii) (s : string) :
  forall stop i last,
    rfind_from c s stop i last =
    match last_index c (take stop s) i with
    | Some p => Z.of_nat p
    | None => last
    end.
Proof.
  induction s as [|a s IH]; intros [|n] i last; simpl; auto.
  rewrite IH. destruct (last_index c (take n s) (S i)); [reflexivity|].
  destruct (Ascii.eqb a c); reflexivity.
Qed.

Lemma last_index_none (c : ascii) (s : string) (i : nat) :
  last_index c s i = None -> forall k, String.get k s <> Some c.
Proof.
  revert i; induction s as [|b s IH]; intros i Hn k; simpl in *.
  - discriminate.
  - destruct (last_index c s (S i)) eqn:E; [discriminate|].
    destruct (Ascii.eqb_spec b c); [discriminate|].
    destruct k; [congruence | eauto].
Qed.

Lemma last_index_bounds (c : ascii) (s : string) :
  forall i p, last_index c s i = Some p ->
    i <= p < i + String.length s /\
    String.get (p - i) s = Some c /\
    forall q, p < q -> q < i + String.length s -> String.get (q - i) s <> Some c.
Proof.
  induction s as [|a s IH]; intros i p H; simpl in H; [discriminate|].
  destruct (last_index c s (S i)) as [p'|] eqn:E.
  - injection H as ->. apply IH in E as (Hb & Hg & Hq).
    cbn [String.length]. split; [lia|]. split.
    + replace (p - i) with (S (p - S i)) by lia. exact Hg.
    + intros q H1 H2. replace (q - i) with (S (q - S i)) by lia.
      apply Hq; lia.
  - destruct (Ascii.eqb_spec a c) as [->|]; [|discriminate].
    injection H as <-. cbn [String.length]. split; [lia|]. split.
    + now rewrite Nat.sub_diag.
    + intros q H1 H2. replace (q - i) with (S (q - S i)) by lia. cbn [get].
      intros Hget. exact (last_index_none _ _ _ E _ Hget).
Qed.

Lemma get_take (n k : nat) (s : string) :
  k < n -> String.get k (take n s) = String.get k s.
Proof.
  revert k s; induction n as [|n IH]; intros k [|a s] H; simpl; try lia; auto.
  destruct k; [reflexivity | apply IH; lia].
Qed.

(** [nearest_newline] is the greatest index below [start] that holds a line
    feed. *)
Lemma nearest_newline_some (text : string) (start p : nat) :
  nearest_newline text start = Some p ->
  p < start /\ String.get p text = Some newline /\
  forall q, p < q -> q < start -> String.get q text <> Some newline.
Proof.
  unfold nearest_newline; intros H.
  apply last_index_bounds in H as (Hb & Hg & Hq).
  rewrite length_take in Hb. rewrite Nat.sub_0_r in Hg.
  assert (p < start) by lia. split; [assumption|]. split.
  - now rewrite get_take in Hg.
  - intros q H1 H2 Hget.
    destruct (Nat.lt_ge_cases q (String.length (take start text))) as [Hlt|Hge].
    + apply (Hq q); [lia | lia |]. rewrite Nat.sub_0_r.
      now rewrite get_take.
    + rewrite length_take in Hge.
      assert (Hlen : String.length text <= q) by lia.
      clear - Hget Hlen. revert q Hget Hlen.
      induction text as [|a t IH]; intros q Hget Hlen; simpl in *.
      * discriminate.
      * destruct q; [lia|]. apply (IH q); [assumption | lia].
Qed.

Lemma nearest_newline_none (text : string) (start : nat) :
  nearest_newline text start = None ->
  forall q, q < start -> String.get q text <> Some newline.
Proof.
  unfold nearest_newline; intros H q Hq Hget.
  apply (last_index_none _ _ _ H q). now rewrite get_take.
Qed.

(** ** The primary scan *)

Local Open Scope list_scope.

Section PrimaryScan.

Context {R : Type} {RD : Reader R}.

Implicit Types (st : state R) (rs : readers R).

Lemma state_eta st : mkState (regs st) (errors st) (line st) (trace st) = st.
Proof. now destruct st. Qed.

(** One match: the flag [this] and the four tests amount to one call of
    [find] in the reader that owns the keyword. *)
Lemma check_match_spec (text : string) st (m : match_obj) :
  check_match text st m =
  let i := info_of text m in
  match owner (func i) with
  | Some o =>
      let (b, r) := find (content i) (get_obj o (regs st)) in
      mkState (set_obj o r (regs st))
              (if b then errors st else errors st ++ [errorstring i])
              (line st)
              (trace st ++ [CallFind o (content i)])
  | None => st
  end.
Proof.
  unfold check_match, owner, lookup.
  set (i := info_of text m). cbv zeta.
  destruct (String.eqb_spec (func i) "pilot.add") as [E|_].
  { rewrite E. cbn [String.eqb Ascii.eqb Bool.eqb andb].
    unfold call_find. destruct (find (content i) _) as [b r].
    destruct b; reflexivity. }
  destruct (String.eqb_spec (func i) "addOutfit") as [E|_].
  { rewrite E. cbn [String.eqb Ascii.eqb Bool.eqb andb].
    unfold call_find. destruct (find (content i) _) as [b r].
    destruct b; reflexivity. }
  destruct (String.eqb_spec (func i) "player.addShip") as [E|_].
  { rewrite E. cbn [String.eqb Ascii.eqb Bool.eqb andb].
    unfold call_find. destruct (find (content i) _) as [b r].
    destruct b; reflexivity. }
  destruct (String.eqb_spec (func i) "diff.apply") as [E|_].
  { unfold call_find. destruct (find (content i) _) as [b r].
    destruct b; reflexivity. }
  reflexivity.
Qed.

(** The loop over the matches of one text. *)
Lemma scan_spec (text : string) (ms : list match_obj) :
  forall st,
    fold_left (check_match text) ms st =
    mkState (readers_after text (regs st) ms)
            (errors st ++ diagnose text (regs st) ms)
            (line st)
            (trace st ++ flat_map (site_events text) ms).
Proof.
  induction ms as [|m ms IH]; intros st; cbn [fold_left].
  - cbn. rewrite !app_nil_r. symmetry; apply state_eta.
  - rewrite IH, check_match_spec. cbv zeta.
    cbn [diagnose readers_after flat_map]. unfold site_events.
    destruct (owner (func (info_of text m))) as [o|]; [|reflexivity].
    destruct (find _ _) as [b r]. cbn [regs errors line trace snd].
    destruct b; rewrite <- ?app_assoc; reflexivity.
Qed.

Lemma flush_spec st :
  flush st = mkState (regs st) [] (line st) (trace st ++ map Stderr (errors st)).
Proof.
  unfold flush. destruct (errors st) as [|e es] eqn:E.
  - cbn. rewrite app_nil_r, <- E. symmetry; apply state_eta.
  - reflexivity.
Qed.

(** One turn of the loop over the files. *)
Lemma process_file_spec (cfg : config) (fs : string -> read_result)
    (file : string) st :
  process_file cfg fs file st =
  let shown := trace st ++ progress cfg file ++ map Stderr (errors st) in
  match fs file with
  | ReadOk text =>
      let ms := finditer search_cobj text in
      Done (mkState (readers_after text (regs st) ms)
                    (diagnose text (regs st) ms)
                    (dict_set file text (line st))
                    (shown ++ flat_map (site_events text) ms ++ done cfg))
  | ReadIOError msg =>
      Done (mkState (regs st) [] (line st)
                    (shown ++ Stderr ("I/O error: " ++ msg)%string :: done cfg))
  | ReadRaises exn => Raised exn (mkState (regs st) [] (line st) shown)
  end.
Proof.
  unfold process_file, progress, done, notice. cbv zeta.
  rewrite flush_spec.
  destruct (fs file) as [text|msg|exn], (verbose cfg);
    rewrite ?scan_spec; unfold emit, set_line;
    cbn [regs errors line trace app];
    rewrite <- ?app_assoc, ?app_nil_r; reflexivity.
Qed.

Lemma primary_scan_app (cfg : config) (fs : string -> read_result)
    (l1 l2 : list string) :
  forall st,
    primary_scan cfg fs (l1 ++ l2) st =
    match primary_scan cfg fs l1 st with
    | Done st' => primary_scan cfg fs l2 st'
    | stopped => stopped
    end.
Proof.
  induction l1 as [|f l1 IH]; intros st; cbn [primary_scan app]; [reflexivity|].
  destruct (process_file cfg fs f st); auto.
Qed.

(** The loop runs to its end when no file raises anything but [IOError]. *)
Lemma primary_scan_done (cfg : config) (fs : string -> read_result)
    (files : list string) :
  (forall g, In g files -> forall exn, fs g <> ReadRaises exn) ->
  forall st, exists st', primary_scan cfg fs files st = Done st'.
Proof.
  induction files as [|f files IH]; intros Hok st; cbn [primary_scan].
  - now exists st.
  - rewrite process_file_spec. cbv zeta.
    destruct (fs f) as [text|msg|exn] eqn:E.
    + apply IH. intros g Hg. apply Hok. now right.
    + apply IH. intros g Hg. apply Hok. now right.
    + exfalso. apply (Hok f (or_introl eq_refl) exn E).
Qed.

End PrimaryScan.

Section ScanFacts.

Context {R : Type} {RD : Reader R}.

Lemma diagnose_in (text : string) (ms : list match_obj) :
  forall (rs : readers R) (e : string),
    In e (diagnose text rs ms) ->
    exists m, In m ms /\ e = errorstring (info_of text m).
Proof.
  induction ms as [|m ms IH]; intros rs e Hin; cbn [diagnose] in Hin.
  - contradiction.
  - cbv zeta in Hin.
    destruct (owner (func (info_of text m))) as [o|].
    + destruct (find _ _) as [b r]. apply in_app_or in Hin as [Hin|Hin].
      * destruct b; [contradiction|]. destruct Hin as [<-|[]].
        exists m. split; [now left | reflexivity].
      * apply IH in Hin as (m' & Hm' & ->). exists m'. split; [now right | reflexivity].
    + apply IH in Hin as (m' & Hm' & ->). exists m'. split; [now right | reflexivity].
Qed.

End ScanFacts.

Lemma info_of_fields (text : string) (m : match_obj) :
  func (info_of text m) = drop_last (group m "func") /\
  content (info_of text m) = group m "content" /\
  (lineno (info_of text m), offset (info_of text m)) = lineNumber text (m_start m).
Proof. unfold info_of, lineNumber. cbn. auto. Qed.

(** The fields of [info] for a match of the primary scan. *)
Lemma scan_info (text : string) (m : match_obj) :
  In m (finditer search_cobj text) ->
  exists kw arg rest,
    call_at (drop (m_start m) text) kw arg rest /\
    group m "func" = kw /\ group m "content" = arg /\
    (func (info_of text m) ++ "(")%string = kw /\
    content (info_of text m) = arg /\
    m_end m = m_start m + String.length kw + 1 + String.length arg.
Proof.
  intros Hin. apply scan_site in Hin as (kw & arg & rest & Hc & He & Hg).
  exists kw, arg, rest.
  destruct (info_of_fields text m) as (Hf & Hct & _).
  rewrite Hf, Hct. unfold group. rewrite Hg.
  change (lookup_group "func" [("content", arg); ("func", kw)]) with kw.
  change (lookup_group "content" [("content", arg); ("func", kw)]) with arg.
  pose proof (keyword_label kw (proj1 Hc)).
  repeat split; auto; apply Hc.
Qed.

(** ** Line and column *)

(** C5, as amended: for every text and every offset, [lineNumber] returns as
    line one more than the number of line feeds before the offset, and as
    column the distance from the nearest line feed before the offset, or
    the offset plus one when no line feed comes before it; the call of the
    three-line example text is reported on line 3, in column 1. *)
Theorem lineNumber_line_and_column :
  (forall (text : string) (start : nat),
     lineNumber text start =
     ((Z.of_nat (occurrences newline (take start text)) + 1)%Z,
      match nearest_newline text start with
      | Some p => (Z.of_nat start - Z.of_nat p)%Z
      | None => (Z.of_nat start + 1)%Z
      end)) /\
  (exists m,
     finditer search_cobj example_text = [m] /\
     group m "func" = "pilot.add("%string /\
     lineNumber example_text (m_start m) = (3%Z, 1%Z)).
Proof.
  split.
  - intros text start. unfold lineNumber, rfind, nearest_newline.
    rewrite count_occurrences, rfind_from_last_index.
    destruct (last_index newline (take start text) 0); f_equal; lia.
  - eexists. split; [vm_compute; reflexivity|]. split; reflexivity.
Qed.

(** C5, as stated, fails on the first line: a call at the very start of a
    text is at distance 0 from the start of the text, and [lineNumber]
    reports column 1. *)
Lemma lineNumber_column_first_line :
  (exists m, finditer search_cobj first_line_text = [m] /\ m_start m = 0) /\
  nearest_newline first_line_text 0 = None /\
  claimed_column first_line_text 0 = 0%Z /\
  lineNumber first_line_text 0 = (1%Z, 1%Z) /\
  snd (lineNumber first_line_text 0) <> claimed_column first_line_text 0.
Proof.
  split; [eexists; split; vm_compute; reflexivity|].
  repeat split; try (vm_compute; reflexivity). vm_compute. discriminate.
Qed.

(** ** The calls that the scanner matches *)

(** C4, as amended: every match of the scanner starts with one of the four
    keywords, followed by a double quote and by the longest run of
    characters other than the double quote, which is not empty and is the
    captured argument, taken as it is; the run ends at the next double quote
    or at the end of the text.  Conversely a text of this shape is matched
    at its head, and the first place of a text with this shape gives the
    first match of the scan. *)
Theorem scanner_calls :
  (forall (text : string) (m : match_obj),
     In m (finditer search_cobj text) ->
     exists kw arg rest,
       In kw keywords /\
       drop (m_start m) text = (kw ++ String dquote (arg ++ rest))%string /\
       arg <> EmptyString /\ mem dquote arg = false /\
       (rest = EmptyString \/ exists rest', rest = String dquote rest') /\
       group m "func" = kw /\ group m "content" = arg /\
       m_end m = m_start m + String.length kw + 1 + String.length arg) /\
  (forall (s kw arg rest : string),
     call_at s kw arg rest ->
     match_at search_cobj s =
     Some (String.length kw + 1 + String.length arg,
           [("content", arg); ("func", kw)])) /\
  (forall (text : string) (n : nat) (kw arg rest : string),
     n <= String.length text ->
     call_at (drop n text) kw arg rest ->
     (forall k, k < n -> match_at search_cobj (drop k text) = None) ->
     hd_error (finditer search_cobj text) =
     Some (mkMatch n (n + (String.length kw + 1 + String.length arg))
             [("content", arg); ("func", kw)])).
Proof.
  split; [|split].
  - intros text m Hin.
    apply scan_info in Hin as (kw & arg & rest & Hc & Hf & Hct & _ & _ & He).
    destruct Hc as (Hkw & Hs & Hne & Hm & Hr).
    exists kw, arg, rest. repeat split; auto.
  - apply match_at_complete.
  - intros text n kw arg rest Hn Hc Hnone.
    apply match_at_complete in Hc.
    exact (finditer_from_first search_cobj _ _ n text 0 Hn Hnone Hc).
Qed.

Lemma scanner_calls_witness :
  In outfit_match (finditer search_cobj outfit_text) /\
  exists kw arg rest,
    In kw keywords /\
    drop (m_start outfit_match) outfit_text
    = (kw ++ String dquote (arg ++ rest))%string /\
    arg <> EmptyString /\ mem dquote arg = false /\
    (rest = EmptyString \/ exists rest', rest = String dquote rest') /\
    group outfit_match "func" = kw /\ group outfit_match "content" = arg /\
    m_end outfit_match
    = m_start outfit_match + String.length kw + 1 + String.length arg.
Proof.
  assert (H : In outfit_match (finditer search_cobj outfit_text)).
  { vm_compute. left. reflexivity. }
  split; [exact H | exact (proj1 scanner_calls _ _ H)].
Defined.

(** C4, as stated, fails: an argument need not end at a double quote.  A
    call whose quote is never closed is matched, and its argument runs to
    the end of the text. *)
Lemma scanner_unclosed_quote :
  exists m,
    In m (finditer search_cobj unclosed_text) /\
    group m "content" = "abc"%string /\
    m_end m = String.length unclosed_text /\
    String.get (m_end m) unclosed_text <> Some dquote.
Proof.
  eexists. split; [vm_compute; left; reflexivity|].
  repeat split; try reflexivity. vm_compute. discriminate.
Qed.

(** ** No empty argument *)

Lemma empty_argument_no_match (kw post : string) :
  In kw keywords ->
  match_at search_cobj (kw ++ String dquote (String dquote post))%string = None.
Proof. intros H; each_keyword H; reflexivity. Qed.

(** C10: no match of the scanner has an empty argument; no match starts at
    a keyword that is followed by two double quotes, wherever it stands in a
    text; so every call of [find] and every diagnostic of a scan is for a
    non-empty argument, and a text that is only such a call gives none. *)
Theorem no_empty_argument :
  (forall (text : string) (m : match_obj),
     In m (finditer search_cobj text) -> group m "content" <> EmptyString) /\
  (forall (pre kw post : string) (m : match_obj),
     In kw keywords ->
     In m (finditer search_cobj (pre ++ kw ++ quoted EmptyString ++ post)%string) ->
     m_start m <> String.length pre) /\
  (forall (R : Type) (RD : Reader R) (st : state R) (text : string),
     (forall o a,
        In (CallFind o a)
           (trace (fold_left (check_match text) (finditer search_cobj text) st)) ->
        In (CallFind o a) (trace st) \/ a <> EmptyString) /\
     (forall e,
        In e (errors (fold_left (check_match text) (finditer search_cobj text) st)) ->
        In e (errors st) \/
        exists m, In m (finditer search_cobj text) /\
                  group m "content" <> EmptyString /\
                  e = errorstring (info_of text m))) /\
  (forall kw : string,
     In kw keywords ->
     finditer search_cobj (kw ++ quoted EmptyString ++ ")")%string = []).
Proof.
  assert (Hne : forall text m,
    In m (finditer search_cobj text) -> group m "content" <> EmptyString).
  { intros text m Hin.
    apply scan_info in Hin as (kw & arg & rest & Hc & _ & -> & _).
    apply Hc. }
  split; [exact Hne|]. split; [|split].
  - intros pre kw post m Hkw Hin Hs.
    apply finditer_spec in Hin as (len & Hat & _ & _).
    rewrite Hs, drop_append in Hat.
    cbn [quoted append] in Hat.
    now rewrite empty_argument_no_match in Hat.
  - intros R RD st text. rewrite scan_spec. cbn [trace errors]. split.
    + intros o a Hin. apply in_app_or in Hin as [Hin|Hin]; [now left|right].
      apply in_flat_map in Hin as (m & Hm & Hev). unfold site_events in Hev.
      destruct (owner _); [|contradiction]. destruct Hev as [Hev|[]].
      injection Hev as _ <-. now apply (Hne text).
    + intros e Hin. apply in_app_or in Hin as [Hin|Hin]; [now left|right].
      apply diagnose_in in Hin as (m & Hm & ->).
      exists m. repeat split; auto. now apply (Hne text).
  - intros kw H; each_keyword H; vm_compute; reflexivity.
Qed.

Lemma no_empty_argument_witness :
  In outfit_match (finditer search_cobj outfit_text) /\
  group outfit_match "content" <> EmptyString.
Proof.
  assert (H : In outfit_match (finditer search_cobj outfit_text)).
  { vm_compute. left. reflexivity. }
  split; [exact H | exact (proj1 no_empty_argument _ _ H)].
Defined.

(** ** The loop over the files *)

(** C9: the diagnostics of a file wait for the next file.  When the loop
    has processed the files up to file N, its pending list holds the
    diagnostics of file N; the loop then goes on with file N+1, and the
    first thing that this turn emits, after its progress notice, is these
    diagnostics on standard error, before the calls of [find] for the
    matches of file N+1 and whatever else the turn emits. *)
Theorem one_file_lag {R : Type} {RD : Reader R} (cfg : config)
    (fs : string -> read_result) (pre : list string) (fN fN1 : string)
    (post : list string) (st0 stN : state R) :
  primary_scan cfg fs (pre ++ [fN]) st0 = Done stN ->
  (exists st',
     primary_scan cfg fs pre st0 = Done st' /\
     errors stN = file_diagnostics fs fN (regs st')) /\
  primary_scan cfg fs (pre ++ fN :: fN1 :: post) st0 =
    match process_file cfg fs fN1 stN with
    | Done st => primary_scan cfg fs post st
    | stopped => stopped
    end /\
  trace (final (process_file cfg fs fN1 stN)) =
    trace stN ++ progress cfg fN1 ++ map Stderr (errors stN)
    ++ file_events cfg fs fN1.
Proof.
  intros H. split; [|split].
  - rewrite primary_scan_app in H.
    destruct (primary_scan cfg fs pre st0) as [st'| |]; try discriminate.
    exists st'. split; [reflexivity|].
    cbn [primary_scan] in H. rewrite process_file_spec in H. cbv zeta in H.
    unfold file_diagnostics.
    destruct (fs fN); try discriminate; injection H as <-; reflexivity.
  - change (pre ++ fN :: fN1 :: post) with (pre ++ [fN] ++ fN1 :: post).
    rewrite app_assoc, primary_scan_app, H. reflexivity.
  - rewrite process_file_spec. cbv zeta. unfold file_events.
    destruct (fs fN1); cbn [final trace];
      rewrite <- ?app_assoc, ?app_nil_r; reflexivity.
Qed.

Lemma one_file_lag_witness :
  primary_scan quiet example_fs ([] ++ ["a.lua"%string])
    (init_state example_readers)
  = Done (final (primary_scan quiet example_fs ["a.lua"%string]
                   (init_state example_readers))) /\
  trace (final (process_file quiet example_fs "c.lua"
                  (final (primary_scan quiet example_fs ["a.lua"%string]
                            (init_state example_readers))))) =
  trace (final (primary_scan quiet example_fs ["a.lua"%string]
                  (init_state example_readers)))
  ++ progress quiet "c.lua"
  ++ map Stderr (errors (final (primary_scan quiet example_fs ["a.lua"%string]
                                  (init_state example_readers))))
  ++ file_events quiet example_fs "c.lua".
Proof.
  assert (H : primary_scan quiet example_fs ([] ++ ["a.lua"%string])
                (init_state example_readers)
              = Done (final (primary_scan quiet example_fs ["a.lua"%string]
                               (init_state example_readers)))).
  { vm_compute. reflexivity. }
  split; [exact H|].
  exact (proj2 (proj2 (one_file_lag quiet example_fs [] "a.lua" "c.lua" [] _ _ H))).
Defined.

(** C7: when no file before [f] raises anything but [IOError], the loop
    reaches [f].  If reading [f] raises [IOError], the pending diagnostics
    and then the warning go to standard error, nothing of [f] is cached or
    looked up, and the loop goes on with the files after [f].  If reading
    [f] raises anything else, the exception leaves the loop and
    [dah_doctor], and no later file is processed. *)
Theorem io_error_skips_other_aborts {R : Type} {RD : Reader R}
    (cfg : config) (fs : string -> read_result) (pre : list string)
    (f : string) (post : list string) (rs : readers R) :
  (forall g, In g pre -> forall exn, fs g <> ReadRaises exn) ->
  exists st1,
    primary_scan cfg fs pre (init_state rs) = Done st1 /\
    (forall msg,
       fs f = ReadIOError msg ->
       let st2 :=
         mkState (regs st1) [] (line st1)
           (trace st1 ++ progress cfg f ++ map Stderr (errors st1)
            ++ Stderr ("I/O error: " ++ msg)%string :: done cfg) in
       primary_scan cfg fs (pre ++ f :: post) (init_state rs)
       = primary_scan cfg fs post st2 /\
       dah_doctor cfg fs (pre ++ f :: post) rs
       = match primary_scan cfg fs post st2 with
         | Done st => verify cfg st
         | stopped => stopped
         end) /\
    (forall exn,
       fs f = ReadRaises exn ->
       dah_doctor cfg fs (pre ++ f :: post) rs
       = Raised exn
           (mkState (regs st1) [] (line st1)
              (trace st1 ++ progress cfg f ++ map Stderr (errors st1)))).
Proof.
  intros Hpre.
  destruct (primary_scan_done cfg fs pre Hpre (init_state rs)) as [st1 H1].
  exists st1. split; [exact H1|].
  assert (Hstep : primary_scan cfg fs (pre ++ f :: post) (init_state rs)
                  = match process_file cfg fs f st1 with
                    | Done st => primary_scan cfg fs post st
                    | stopped => stopped
                    end).
  { rewrite primary_scan_app, H1. reflexivity. }
  split.
  - intros msg Hf. cbv zeta. unfold dah_doctor. rewrite Hstep.
    rewrite process_file_spec. cbv zeta. rewrite Hf.
    rewrite <- !app_assoc. split; reflexivity.
  - intros exn Hf. unfold dah_doctor. rewrite Hstep.
    rewrite process_file_spec. cbv zeta. rewrite Hf.
    reflexivity.
Qed.

Lemma io_error_skips_other_aborts_witness :
  (forall g, In g ["a.lua"%string] ->
             forall exn, example_fs g <> ReadRaises exn) /\
  (exists st,
     dah_doctor quiet example_fs (["a.lua"; "b.lua"; "c.lua"])%string
       example_readers = Done st /\
     In (Stderr "I/O error: No such file: b.lua") (trace st) /\
     map fst (line st) = ["a.lua"; "c.lua"]%string) /\
  (exists st,
     dah_doctor quiet example_fs (["a.lua"; "d.lua"; "c.lua"])%string
       example_readers = Raised "UnicodeDecodeError" st).
Proof.
  assert (Hpre : forall g, In g ["a.lua"%string] ->
                           forall exn, example_fs g <> ReadRaises exn).
  { intros g [<-|[]] exn. vm_compute. discriminate. }
  split; [exact Hpre|].
  destruct (io_error_skips_other_aborts quiet example_fs ["a.lua"%string]
              "d.lua" ["c.lua"%string] example_readers Hpre)
    as (st1 & _ & _ & Hraise).
  split.
  - eexists. split; [vm_compute; reflexivity|].
    split; [vm_compute; tauto | reflexivity].
  - eexists. exact (Hraise "UnicodeDecodeError"%string eq_refl).
Defined.

(** ** After the loop *)

Lemma fold_left_invariant {A B : Type} (P : A -> Prop) (f : A -> B -> A)
    (l : list B) :
  (forall a b, In b l -> P a -> P (f a b)) ->
  forall a, P a -> P (fold_left f l a).
Proof.
  induction l as [|b l IH]; intros Hf a Ha; cbn [fold_left]; [exact Ha|].
  apply IH.
  - intros a' b' Hb'. apply Hf. now right.
  - apply Hf; [now left | exact Ha].
Qed.

Lemma fold_left_reach {A B : Type} (P : A -> Prop) (f : A -> B -> A)
    (l : list B) (x : B) :
  (forall a b, P a -> P (f a b)) ->
  In x l -> (forall a, P (f a x)) ->
  forall a, P (fold_left f l a).
Proof.
  intros Hkeep Hin Hx. induction l as [|b l IH]; intros a; [contradiction|].
  cbn [fold_left]. destruct Hin as [->|Hin].
  - apply fold_left_invariant; [intros; now apply Hkeep | apply Hx].
  - now apply IH.
Qed.

Lemma stderr_lines_app (e1 e2 : list event) :
  stderr_lines (e1 ++ e2) = stderr_lines e1 ++ stderr_lines e2.
Proof.
  induction e1 as [|[] e1 IH]; cbn [stderr_lines app]; auto.
  now rewrite IH.
Qed.

Lemma stderr_lines_map (es : list string) : stderr_lines (map Stderr es) = es.
Proof. induction es as [|e es IH]; cbn; [reflexivity | now rewrite IH]. Qed.

Lemma stderr_lines_sites (text : string) (ms : list match_obj) :
  stderr_lines (flat_map (site_events text) ms) = [].
Proof.
  induction ms as [|m ms IH]; cbn [flat_map]; [reflexivity|].
  rewrite stderr_lines_app, IH. unfold site_events.
  now destruct (owner _).
Qed.

Lemma stderr_lines_progress (cfg : config) (file : string) :
  stderr_lines (progress cfg file) = [].
Proof. unfold progress. now destruct (verbose cfg). Qed.

Lemma stderr_lines_done (cfg : config) : stderr_lines (done cfg) = [].
Proof. unfold done. now destruct (verbose cfg). Qed.

Section AfterTheLoop.

Context {R : Type} {RD : Reader R}.

Implicit Types (st : state R).

Lemma silent_refl st : silent st st.
Proof. repeat split. Qed.

Lemma silent_trans st1 st2 st3 : silent st1 st2 -> silent st2 st3 -> silent st1 st3.
Proof. unfold silent. intuition congruence. Qed.

Lemma call_set_unknown_silent (o : obj) (a : string) st :
  silent st (call_set_unknown o a st).
Proof.
  unfold silent, call_set_unknown. cbn. rewrite stderr_lines_app. cbn.
  now rewrite app_nil_r.
Qed.

Lemma mark_unknown_silent (category : string) st (m : match_obj) :
  silent st (mark_unknown category st m).
Proof.
  unfold mark_unknown.
  apply (fold_left_invariant (silent st)); [|apply silent_refl].
  intros a [o key] _ Ha. destruct (String.eqb _ _); [|exact Ha].
  eapply silent_trans; [exact Ha | apply call_set_unknown_silent].
Qed.

Lemma secondary_scan_silent (mcobj : list (string * regex)) st :
  silent st (secondary_scan mcobj st).
Proof.
  unfold secondary_scan.
  apply (fold_left_invariant (silent st)); [|apply silent_refl].
  intros a fc _ Ha. unfold rescan.
  apply (fold_left_invariant (silent st)); [|exact Ha].
  intros a' cc _ Ha'.
  apply (fold_left_invariant (silent st)); [|exact Ha'].
  intros a'' m _ Ha''.
  eapply silent_trans; [exact Ha'' | apply mark_unknown_silent].
Qed.

Lemma emit_silent (evs : list event) st :
  stderr_lines evs = [] -> silent st (emit evs st).
Proof.
  intros H. unfold silent, emit. cbn. rewrite stderr_lines_app, H.
  now rewrite app_nil_r.
Qed.

Lemma report_silent (cfg : config) st : silent st (report cfg st).
Proof.
  unfold report. destruct (show_unused cfg).
  - eapply silent_trans; apply emit_silent; reflexivity.
  - apply emit_silent; reflexivity.
Qed.

(** Nothing after the loop over the files prints the pending diagnostics:
    what follows the loop leaves the list [errors] as it is and writes
    nothing on standard error. *)
Lemma verify_silent (cfg : config) st : silent st (final (verify cfg st)).
Proof.
  unfold verify.
  assert (H0 : silent st (emit [Stdout "Verifying ..."] st))
    by (apply emit_silent; reflexivity).
  cbv zeta. destruct (0 <? _)%nat.
  - destruct (build_mcobj _) as [mcobj|]; cbn [final]; [|exact H0].
    eapply silent_trans; [exact H0|].
    eapply silent_trans; [apply secondary_scan_silent | apply report_silent].
  - cbn [final]. eapply silent_trans; [exact H0 | apply report_silent].
Qed.

(** What the loop over the files has printed and holds pending. *)
Lemma primary_scan_lines (cfg : config) (fs : string -> read_result)
    (all : list string) (files : list string) :
  incl files all ->
  forall st,
    (forall e, In e (errors st) -> is_diagnostic fs all e) ->
    (forall l, In l (stderr_lines (trace st)) ->
               is_diagnostic fs all l \/ is_io_warning fs all l) ->
    let st' := final (primary_scan cfg fs files st) in
    (forall e, In e (errors st') -> is_diagnostic fs all e) /\
    (forall l, In l (stderr_lines (trace st')) ->
               is_diagnostic fs all l \/ is_io_warning fs all l).
Proof.
  induction files as [|f files IH]; intros Hincl st He Ht; cbn [primary_scan].
  - cbn [final]. auto.
  - assert (Hf : In f all) by (apply Hincl; now left).
    assert (Hfiles : incl files all) by (intros x Hx; apply Hincl; now right).
    rewrite process_file_spec. cbv zeta.
    assert (Hshown : forall l,
      In l (stderr_lines (trace st ++ progress cfg f ++ map Stderr (errors st))) ->
      is_diagnostic fs all l \/ is_io_warning fs all l).
    { intros l. rewrite !stderr_lines_app, stderr_lines_progress, stderr_lines_map.
      cbn [app]. intros Hl. apply in_app_or in Hl as [Hl|Hl]; auto. }
    destruct (fs f) as [text|msg|exn] eqn:E.
    + apply IH; [exact Hfiles | |]; cbn [errors trace].
      * intros e Hin. apply diagnose_in in Hin as (m & Hm & ->).
        destruct (scan_info text m Hm) as (kw & arg & rest & Hc & Hg & Hct & Hl & _).
        exists f, text, m, (func (info_of text m)).
        rewrite Hl.
        split; [exact Hf|]. split; [exact E|]. split; [exact Hm|].
        split; [apply Hc|]. split; [exact Hg|].
        unfold errorstring.
        destruct (info_of_fields text m) as (_ & -> & Hln).
        rewrite <- Hln. reflexivity.
      * intros l. rewrite !stderr_lines_app, stderr_lines_sites, stderr_lines_done.
        cbn [app]. rewrite app_nil_r, <- !stderr_lines_app. apply Hshown.
    + apply IH; [exact Hfiles | |]; cbn [errors trace].
      * intros e [].
      * intros l. rewrite stderr_lines_app. cbn [stderr_lines].
        rewrite stderr_lines_done. intros Hl.
        apply in_app_or in Hl as [Hl|[<-|[]]]; [now apply Hshown|].
        right. now exists f, msg.
    + cbn [final trace errors]. split; [intros e []|exact Hshown].
Qed.

End AfterTheLoop.

(** ** The diagnostics on standard error *)

(** C2, as amended: every line that a run writes on standard error is the
    warning of a file that could not be read or a diagnostic of a match of a
    scanned file, and such a diagnostic reads exactly [Can not found
    element ``<argument>'' for function <label> at line <line> offset
    <column>], with the argument between two grave accents and two
    apostrophes, the label being the matched keyword without its
    parenthesis, and line and column as [lineNumber] gives them. *)
Theorem diagnostic_lines {R : Type} {RD : Reader R} (cfg : config)
    (fs : string -> read_result) (files : list string) (rs : readers R)
    (l : string) :
  In l (stderr_lines (trace (final (dah_doctor cfg fs files rs)))) ->
  is_diagnostic fs files l \/ is_io_warning fs files l.
Proof.
  unfold dah_doctor.
  destruct (primary_scan_lines cfg fs files files (incl_refl _)
              (init_state rs)) as [_ Hl].
  - intros e [].
  - intros l' [].
  - intros Hin. apply Hl.
    destruct (primary_scan cfg fs files (init_state rs)) as [st| |];
      cbn [final] in *; try exact Hin.
    destruct (verify_silent cfg st) as (_ & _ & Hs). now rewrite <- Hs.
Qed.

Lemma diagnostic_lines_witness :
  In "Can not found element ``Nope'' for function pilot.add at line 1 offset 1"%string
     (stderr_lines (trace (final
        (dah_doctor quiet example_fs ["a.lua"; "b.lua"; "c.lua"]%string
           example_readers)))) /\
  (is_diagnostic example_fs ["a.lua"; "b.lua"; "c.lua"]%string
     "Can not found element ``Nope'' for function pilot.add at line 1 offset 1" \/
   is_io_warning example_fs ["a.lua"; "b.lua"; "c.lua"]%string
     "Can not found element ``Nope'' for function pilot.add at line 1 offset 1").
Proof.
  assert (H : In "Can not found element ``Nope'' for function pilot.add at line 1 offset 1"%string
     (stderr_lines (trace (final
        (dah_doctor quiet example_fs ["a.lua"; "b.lua"; "c.lua"]%string
           example_readers))))).
  { vm_compute. left. reflexivity. }
  split; [exact H | exact (diagnostic_lines _ _ _ _ _ H)].
Defined.

(** C2, as stated, fails: the line for the fleet Nope of the first example
    script has the argument between two grave accents and two apostrophes,
    not between two apostrophes. *)
Lemma diagnostic_line_quoting :
  stderr_lines (trace (final
    (dah_doctor quiet example_fs ["a.lua"; "b.lua"; "c.lua"]%string
       example_readers)))
  = ["Can not found element ``Nope'' for function pilot.add at line 1 offset 1";
     "I/O error: No such file: b.lua"]%string /\
  claimed_line (mkInfo 1 1 "pilot.add" "Nope")
  = "Can not found element 'Nope' for function pilot.add at line 1 offset 1"%string /\
  ~ In (claimed_line (mkInfo 1 1 "pilot.add" "Nope"))
       (stderr_lines (trace (final
          (dah_doctor quiet example_fs ["a.lua"; "b.lua"; "c.lua"]%string
             example_readers)))).
Proof.
  split; [vm_compute; reflexivity|]. split; [vm_compute; reflexivity|].
  vm_compute. intros [H|[H|[]]]; discriminate H.
Qed.

(** C1, on one script with one unresolved call: the run returns with the
    diagnostic still in the pending list, and nothing was written on
    standard error. *)
Theorem last_file_diagnostics_lost (cfg : config) :
  exists st,
    dah_doctor cfg lonely_fs ["a.lua"%string] no_readers = Done st /\
    errors st
    = ["Can not found element ``Nope'' for function pilot.add at line 1 offset 1"%string] /\
    stderr_lines (trace st) = [].
Proof.
  destruct cfg as [[] []]; eexists; repeat split; vm_compute; reflexivity.
Qed.

(** ** Resolution against the registries *)

Lemma known_In (n : string) (r : registry) :
  known n r = true <-> In n (map name r).
Proof.
  unfold known. rewrite existsb_exists, in_map_iff.
  split; intros (e & H1 & H2).
  - exists e. apply String.eqb_eq in H2. auto.
  - exists e. split; [assumption | now apply String.eqb_eq].
Qed.

Lemma registry_find_known (n : string) (r : registry) :
  fst (registry_find n r) = known n r.
Proof. unfold registry_find. now destruct (known n r). Qed.

Lemma scan_owner (text : string) (m : match_obj) :
  In m (finditer search_cobj text) ->
  exists o, In (func (info_of text m), o) call_kinds /\
            owner (func (info_of text m)) = Some o.
Proof.
  intros Hin.
  destruct (scan_info text m Hin) as (kw & arg & rest & Hc & Hg & _).
  destruct (info_of_fields text m) as (-> & _). rewrite Hg.
  destruct Hc as (Hkw & _).
  each_keyword Hkw;
    [exists Fleetdata | exists Shipdata | exists Outfitdata | exists Udata];
    (split; [vm_compute; tauto | reflexivity]).
Qed.

(** C3: for every match of the scanner, the reader is the one of the
    keyword, [find] is called once, with the argument of the match; when the
    argument is a name of that registry, [find] is true and the pending list
    is left as it is; when it is not, [find] is false and the pending list
    grows by one diagnostic, made of the keyword, the argument and the line
    and column that [lineNumber] gives for the start of the match. *)
Theorem resolution (text : string) (st : state registry) (m : match_obj) :
  In m (finditer search_cobj text) ->
  exists o,
    In (func (info_of text m), o) call_kinds /\
    (func (info_of text m) ++ "(")%string = group m "func" /\
    content (info_of text m) = group m "content" /\
    (lineno (info_of text m), offset (info_of text m))
    = lineNumber text (m_start m) /\
    trace (check_match text st m)
    = trace st ++ [CallFind o (content (info_of text m))] /\
    (In (content (info_of text m)) (map name (get_obj o (regs st))) ->
     fst (find (content (info_of text m)) (get_obj o (regs st))) = true /\
     errors (check_match text st m) = errors st) /\
    (~ In (content (info_of text m)) (map name (get_obj o (regs st))) ->
     fst (find (content (info_of text m)) (get_obj o (regs st))) = false /\
     errors (check_match text st m)
     = errors st ++ [errorstring (info_of text m)]).
Proof.
  intros Hin.
  destruct (scan_owner text m Hin) as (o & Hk & Ho).
  destruct (scan_info text m Hin) as (kw & arg & rest & _ & Hg & _ & Hl & _).
  destruct (info_of_fields text m) as (_ & Hct & Hln).
  exists o. split; [exact Hk|]. split; [congruence|].
  split; [exact Hct|]. split; [exact Hln|].
  rewrite check_match_spec. cbv zeta. rewrite Ho.
  change (@find registry registry_reader) with registry_find.
  pose proof (registry_find_known (content (info_of text m))
                (get_obj o (regs st))) as Hf.
  destruct (registry_find _ _) as [b r]. cbn [fst] in Hf.
  cbn [trace errors]. split; [reflexivity|]. split.
  - intros Hn%known_In. rewrite Hn in Hf. subst b. auto.
  - intros Hn. destruct b; [|auto].
    exfalso. apply Hn, known_In. symmetry; exact Hf.
Qed.

Lemma resolution_witness :
  In hawking_match (finditer search_cobj ship_text) /\
  ~ In "Hawking"%string
       (map name (get_obj Shipdata (regs (init_state example_readers)))) /\
  exists o,
    In (func (info_of ship_text hawking_match), o) call_kinds /\
    errors (check_match ship_text (init_state example_readers) hawking_match)
    = ["Can not found element ``Hawking'' for function player.addShip at line 1 offset 25"%string].
Proof.
  assert (H : In hawking_match (finditer search_cobj ship_text)).
  { vm_compute. right. left. reflexivity. }
  split; [exact H|]. split.
  - vm_compute. intros [E|[E|[]]]; discriminate E.
  - destruct (resolution ship_text (init_state example_readers) hawking_match H)
      as (o & Hk & _ & _ & _ & _ & _ & _).
    exists o. split; [exact Hk|]. vm_compute. reflexivity.
Defined.

(** ** The secondary scan *)




Lemma get_set_obj_other {R : Type} (o o' : obj) (r : R) (rs : readers R) :
  o <> o' -> get_obj o (set_obj o' r rs) = get_obj o rs.
Proof. destruct o, o'; intros H; try reflexivity; congruence. Qed.


Section Marked.

Variables (o : obj) (n : string).










End Marked.

Lemma unused_data_in {R : Type} {RD : Reader R} (rs : readers R) (o : obj)
    (key : string) :
  In (o, key) tocheck -> get_unused (get_obj o rs) <> [] ->
  In (key, get_unused (get_obj o rs)) (unused_data rs).
Proof.
  unfold unused_data, tocheck. cbn [flat_map fst snd In].
  rewrite !in_app_iff.
  intros [E|[E|[E|[E|[]]]]] Hne; injection E as <- <-;
    destruct (get_unused _) as [|x t] eqn:Eu; try congruence;
    cbn [List.length Nat.ltb Nat.leb In]; tauto.
Qed.

Lemma build_mcobj_in (ud : list (string * list string))
    (mc : list (string * regex)) (key : string) (data : list string)
    (cobj : regex) :
  build_mcobj ud = Some mc -> In (key, data) ud ->
  re_compile (regex_text key data) = Some cobj -> In (key, cobj) mc.
Proof.
  revert mc; induction ud as [|[k d] ud IH]; intros mc Hb Hin Hc; [contradiction|].
  cbn [build_mcobj] in Hb.
  destruct (re_compile (regex_text k d)) as [c|] eqn:Ec; [|discriminate].
  destruct (build_mcobj ud) as [rest|]; [|discriminate].
  injection Hb as <-. destruct Hin as [E|Hin].
  - injection E as -> ->. left. congruence.
  - right. now apply IH.
Qed.




(** The name of a fleet written with a tabulation in the place of its space
    is matched, [set_unknown] is called with the matched text, and the
    fleet stays unused. *)
Lemma other_white_space_stays_unused :
  exists st,
    dah_doctor quiet tab_fs ["a.lua"%string] one_fleet = Done st /\
    In (CallSetUnknown Fleetdata (String "P" (String "i" (String "r" (String "a"
          (String "t" (String "e" (String "009"%char "Shark"))))))))
       (trace st) /\
    get_unused (fleetdata (regs st)) = ["Pirate Shark"%string].
Proof.
  eexists. split; [vm_compute; reflexivity|].
  split; [vm_compute; tauto | reflexivity].
Qed.

(** ** The patterns of the secondary scan *)

Local Open Scope string_scope.

Lemma drop_last_bar (s : string) : drop_last (s ++ "|") = s.
Proof.
  unfold drop_last. rewrite length_append. cbn [String.length].
  replace (String.length s + 1 - 1) with (String.length s) by lia.
  apply take_append.
Qed.

Lemma add_name_rname (data : list string) :
  forall rname uniqList,
    fst (fold_left add_name data (rname, uniqList)) =
    rname ++ fold_right (fun n acc => replace_space "\s" n ++ "|" ++ acc)
               EmptyString data.
Proof.
  induction data as [|n data IH]; intros rname uniqList; cbn [fold_left fold_right].
  - now rewrite append_empty_r.
  - unfold add_name at 2. rewrite IH. now rewrite !append_assoc.
Qed.

Lemma alternation_bar (names : list string) :
  names <> [] ->
  fold_right (fun n acc => n ++ "|" ++ acc) EmptyString names
  = alternation names ++ "|".
Proof.
  induction names as [|n names IH]; intros Hne; [congruence|].
  destruct names as [|n' names]; [reflexivity|].
  cbn [fold_right alternation] in *. rewrite IH by discriminate.
  now rewrite !append_assoc.
Qed.

(** The text of a secondary pattern: one named group around the names, in
    the order of [data] and every one of them, joined by bars, each space
    of a name written as a backslash and an s. *)
Lemma regex_text_spec (category : string) (data : list string) :
  data <> [] ->
  regex_text category data =
  fst (regex_template category)
  ++ alternation (map (replace_space "\s") data)
  ++ snd (regex_template category).
Proof.
  intros Hne. unfold regex_text.
  pose proof (add_name_rname data EmptyString []) as H.
  destruct (fold_left add_name data (EmptyString, [])) as [rname uniqList].
  cbn [fst] in H. subst rname. unfold regex_template. cbn [fst snd].
  assert (E : fold_right (fun n acc => replace_space "\s" n ++ "|" ++ acc)
                EmptyString data
              = alternation (map (replace_space "\s") data) ++ "|").
  { rewrite <- alternation_bar by (destruct data; [congruence | discriminate]).
    clear. induction data as [|n data IH]; cbn [fold_right map];
      [reflexivity | now rewrite IH]. }
  rewrite E. cbn [append]. rewrite drop_last_bar. reflexivity.
Qed.

Local Open Scope list_scope.

(** Only the categories with something unused get a pattern. *)
Lemma unused_data_keys {R : Type} {RD : Reader R} (rs : readers R)
    (key : string) (data : list string) :
  In (key, data) (unused_data rs) ->
  data <> [] /\
  exists o, In (o, key) tocheck /\ data = get_unused (get_obj o rs).
Proof.
  unfold unused_data, tocheck. cbn [flat_map fst snd].
  rewrite !in_app_iff.
  intros H.
  repeat match type of H with
  | _ \/ _ => destruct H as [H|H]
  end;
  match type of H with
  | In _ (if (0 <? List.length (get_unused (get_obj ?o rs)))%nat then _ else _) =>
      destruct (get_unused (get_obj o rs)) as [|x t] eqn:E;
      [contradiction|];
      destruct H as [H|[]]; injection H as <- <-;
      split; [discriminate|]; exists o; rewrite E; cbn; tauto
  | _ => contradiction
  end.
Qed.

Lemma build_mcobj_keys (ud : list (string * list string))
    (mc : list (string * regex)) :
  build_mcobj ud = Some mc -> map fst mc = map fst ud.
Proof.
  revert mc; induction ud as [|[k d] ud IH]; intros mc Hb; cbn [build_mcobj] in Hb.
  - now injection Hb as <-.
  - destruct (re_compile _); [|discriminate].
    destruct (build_mcobj ud) as [rest|]; [|discriminate].
    injection Hb as <-. cbn. f_equal. now apply IH.
Qed.

(** C8, on two unused fleets whose names are alike once the space is
    written as a backslash and an s: the loop puts only one of them in
    [uniqList], but the pattern is made from [rname] and holds the same
    alternative twice; a name that [get_unused] yields twice is repeated in
    the same way.  Only the category with something unused has a pattern. *)
Theorem duplicate_alternative_repeated :
  get_unused (fleetdata alike_fleets) = ["Pirate Shark"; "Pirate\sShark"]%string /\
  fold_left add_name (get_unused (fleetdata alike_fleets)) (EmptyString, [])
  = ("Pirate\sShark|Pirate\sShark|", ["Pirate\sShark"])%string /\
  regex_text "fleet" (get_unused (fleetdata alike_fleets))
  = (String newline indent16 ++ "(?P<fleet>Pirate\sShark|Pirate\sShark)"
     ++ String newline indent16)%string /\
  option_map (map fst) (build_mcobj (unused_data alike_fleets))
  = Some ["fleet"%string] /\
  (exists r,
     build_mcobj (unused_data alike_fleets)
     = Some [("fleet"%string, Group "fleet" (Alt r r))]) /\
  regex_text "ship" ["Llama"; "Llama"]%string
  = (String newline indent16 ++ "(?P<ship>Llama|Llama)"
     ++ String newline indent16)%string.
Proof.
  split; [reflexivity|]. split; [vm_compute; reflexivity|].
  split; [vm_compute; reflexivity|]. split; [vm_compute; reflexivity|].
  split; [eexists; vm_compute; reflexivity | vm_compute; reflexivity].
Qed.

(** * Further properties *)

(** ** Line and column, position by position *)

Lemma count_step (c : ascii) (s : string) :
  forall n,
    count c s (S n) =
    count c s n +
    match String.get n s with
    | Some a => if Ascii.eqb a c then 1 else 0
    | None => 0
    end.
Proof.
  induction s as [|a s IH]; intros n; [now destruct n|].
  destruct n as [|n]; cbn [count String.get].
  - destruct s; cbn [count]; lia.
  - rewrite IH. lia.
Qed.

Lemma rfind_from_step (c : ascii) (s : string) :
  forall n i last,
    rfind_from c s (S n) i last =
    match String.get n s with
    | Some a => if Ascii.eqb a c then Z.of_nat (i + n) else rfind_from c s n i last
    | None => rfind_from c s n i last
    end.
Proof.
  induction s as [|a s IH]; intros n i last; [now destruct n|].
  destruct n as [|n]; cbn [rfind_from String.get].
  - rewrite Nat.add_0_r. now destruct s.
  - rewrite IH. now rewrite Nat.add_succ_r.
Qed.

Lemma count_le (c : ascii) (s : string) (n : nat) : count c s n <= n.
Proof.
  revert s; induction n as [|n IH]; intros [|a s]; cbn [count]; try lia.
  specialize (IH s). destruct (Ascii.eqb a c); lia.
Qed.

Lemma rfind_bounds (c : ascii) (s : string) (n : nat) :
  (-1 <= rfind c s n < Z.of_nat n)%Z.
Proof.
  unfold rfind. rewrite rfind_from_last_index.
  destruct (last_index c (take n s) 0) as [p|] eqn:E; [|lia].
  apply last_index_bounds in E as (Hb & _). rewrite length_take in Hb. lia.
Qed.

(** X1: the line is at least 1 and the column is at least 1, and neither
    exceeds the offset plus one. *)
Theorem lineNumber_bounds (text : string) (start : nat) :
  (1 <= fst (lineNumber text start) <= Z.of_nat start + 1)%Z /\
  (1 <= snd (lineNumber text start) <= Z.of_nat start + 1)%Z.
Proof.
  unfold lineNumber. cbn [fst snd].
  pose proof (count_le newline text start).
  pose proof (rfind_bounds newline text start). lia.
Qed.

Lemma lineNumber_succ (text : string) (start : nat) :
  lineNumber text (S start) =
  match String.get start text with
  | Some a =>
      if Ascii.eqb a newline
      then ((fst (lineNumber text start) + 1)%Z, 1%Z)
      else (fst (lineNumber text start), (snd (lineNumber text start) + 1)%Z)
  | None => (fst (lineNumber text start), (snd (lineNumber text start) + 1)%Z)
  end.
Proof.
  unfold lineNumber, rfind. cbn [fst snd].
  rewrite count_step, rfind_from_step. cbn [Nat.add].
  destruct (String.get start text) as [a|]; [destruct (Ascii.eqb a newline)|];
    f_equal; lia.
Qed.

(** X2: one position further, the column grows by one and the line stays,
    unless the character passed is a line feed: then the line grows by one
    and the column is 1 again. *)
Theorem lineNumber_step (text : string) (start : nat) :
  lineNumber text (S start) =
  match String.get start text with
  | Some a =>
      if Ascii.eqb a newline
      then ((fst (lineNumber text start) + 1)%Z, 1%Z)
      else (fst (lineNumber text start), (snd (lineNumber text start) + 1)%Z)
  | None => (fst (lineNumber text start), (snd (lineNumber text start) + 1)%Z)
  end.
Proof. exact (lineNumber_succ text start). Qed.

Lemma lineNumber_ahead (text : string) (n : nat) :
  forall d,
    (fst (lineNumber text n) <= fst (lineNumber text (n + d)))%Z /\
    (fst (lineNumber text (n + d)) = fst (lineNumber text n) ->
     snd (lineNumber text (n + d)) = (snd (lineNumber text n) + Z.of_nat d)%Z).
Proof.
  induction d as [|d [IH1 IH2]].
  - rewrite Nat.add_0_r. split; [lia | intros _; lia].
  - rewrite Nat.add_succ_r, lineNumber_succ.
    destruct (String.get (n + d) text) as [a|];
      [destruct (Ascii.eqb a newline)|]; cbn [fst snd];
      (split; [lia | intros E; try lia; rewrite IH2 by lia; lia]).
Qed.

(** X3: two different offsets of a text never get the same line and
    column. *)
Theorem lineNumber_injective (text : string) (n1 n2 : nat) :
  lineNumber text n1 = lineNumber text n2 -> n1 = n2.
Proof.
  assert (H : forall a b, a <= b ->
            lineNumber text a = lineNumber text b -> a = b).
  { intros a b Hab E.
    destruct (lineNumber_ahead text a (b - a)) as [_ H2].
    replace (a + (b - a)) with b in H2 by lia.
    rewrite E in H2. specialize (H2 eq_refl). lia. }
  intros E. destruct (Nat.le_ge_cases n1 n2) as [Hle|Hle].
  - now apply H.
  - symmetry. apply H; [exact Hle | now symmetry].
Qed.

Lemma lineNumber_injective_witness :
  lineNumber example_text 4 = lineNumber example_text (2 + 2) /\ 4 = 2 + 2.
Proof.
  assert (H : lineNumber example_text 4 = lineNumber example_text (2 + 2))
    by reflexivity.
  split; [exact H | exact (lineNumber_injective example_text 4 (2 + 2) H)].
Defined.

(** ** The matches of a scan *)

Lemma plus_greedy_continues {X : Type} (p : ascii -> bool) (s : string)
    (k : string -> option X) (x : X) :
  plus_greedy p s k = Some x ->
  exists n, 0 < n <= String.length s /\ k (drop n s) = Some x.
Proof.
  revert x; induction s as [|c s IH]; intros x H; cbn [plus_greedy] in H.
  - discriminate.
  - destruct (p c); [|discriminate].
    destruct (plus_greedy p s k) as [y|] eqn:E.
    + injection H as ->. destruct (IH x eq_refl) as (n & Hn & Hk).
      exists (S n). cbn [drop String.length]. split; [lia | exact Hk].
    + exists 1. cbn [drop String.length]. split; [lia | exact H].
Qed.

(** A match ends the run of the continuation on a rest of the text. *)
Lemma exec_continues {X : Type} (r : regex) :
  forall (s : string) (g : groups) (k : string -> groups -> option X) (x : X),
    exec r s g k = Some x ->
    exists n g', n <= String.length s /\ k (drop n s) g' = Some x.
Proof.
  induction r as [l|p|p|r1 IH1 r2 IH2|r1 IH1 r2 IH2|name r IH];
    intros s g k x H; cbn [exec] in H.
  - destruct (strip_prefix l s) as [s'|] eqn:E; [|discriminate].
    apply strip_prefix_spec in E. subst s.
    exists (String.length l), g. rewrite drop_append, length_append.
    split; [lia | exact H].
  - destruct s as [|c s]; [discriminate|]. destruct (p c); [|discriminate].
    exists 1, g. cbn [drop String.length]. split; [lia | exact H].
  - apply plus_greedy_continues in H as (n & Hn & Hk).
    exists n, g. split; [lia | exact Hk].
  - apply IH1 in H as (n1 & g1 & Hn1 & H).
    apply IH2 in H as (n2 & g2 & Hn2 & H).
    exists (n1 + n2), g2. rewrite drop_drop in H. rewrite length_drop in Hn2.
    split; [lia | exact H].
  - destruct (exec r1 s g k) as [y|] eqn:E.
    + injection H as ->. now apply IH1 in E.
    + now apply IH2 in H.
  - apply IH in H as (n & g' & Hn & H). eauto.
Qed.

Lemma match_at_length (r : regex) (s : string) (len : nat) (g : groups) :
  match_at r s = Some (len, g) -> len <= String.length s.
Proof.
  unfold match_at. intros H.
  apply exec_continues in H as (n & g' & _ & H). injection H as <- _. lia.
Qed.


Lemma finditer_from_ordered (r : regex) (s : string) :
  forall pos skip,
    Forall (fun m => pos + skip <= m_start m /\ m_start m <= m_end m /\
                     m_end m <= pos + String.length s)
           (finditer_from r pos skip s) /\
    ForallOrdPairs (fun a b => m_end a <= m_start b /\ m_start a < m_start b)
                   (finditer_from r pos skip s).
Proof.
  induction s as [|c s IH]; intros pos skip.
  - destruct skip as [|skip]; cbn [finditer_from].
    + destruct (match_at r EmptyString) as [[len g]|] eqn:E.
      * apply match_at_length in E. cbn [String.length] in *.
        split; repeat constructor; cbn [m_start m_end]; lia.
      * split; constructor.
    + split; constructor.
  - destruct skip as [|skip]; cbn [finditer_from].
    + destruct (match_at r (String c s)) as [[len g]|] eqn:E.
      * apply match_at_length in E. cbn [String.length] in *.
        destruct (IH (S pos) (len - 1)) as [Hb Ho]. split.
        -- constructor; [cbn [m_start m_end]; lia|].
           eapply Forall_impl; [|exact Hb]. cbn beta. intros m. lia.
        -- constructor; [|exact Ho].
           eapply Forall_impl; [|exact Hb]. cbn [m_start m_end]. intros m. lia.
      * destruct (IH (S pos) 0) as [Hb Ho]. split; [|exact Ho].
        eapply Forall_impl; [|exact Hb]. cbn [String.length]. intros m. lia.
    + destruct (IH (S pos) skip) as [Hb Ho]. split; [|exact Ho].
      eapply Forall_impl; [|exact Hb]. cbn [String.length]. intros m. lia.
Qed.

(** X4: for every pattern, the matches of a scan lie inside the text, each
    starts after the start of the one before it and not before its end, so
    no two matches overlap. *)
Theorem finditer_ordered (r : regex) (text : string) :
  Forall (fun m => m_start m <= m_end m /\ m_end m <= String.length text)
         (finditer r text) /\
  ForallOrdPairs (fun a b => m_end a <= m_start b /\ m_start a < m_start b)
                 (finditer r text).
Proof.
  destruct (finditer_from_ordered r text 0 0) as [Hb Ho]. split; [|exact Ho].
  eapply Forall_impl; [|exact Hb]. cbn beta. intros m. lia.
Qed.

Lemma mem_append (c : ascii) (s1 s2 : string) :
  mem c (s1 ++ s2)%string = mem c s1 || mem c s2.
Proof.
  induction s1 as [|a s1 IH]; cbn [mem append]; [reflexivity|].
  now rewrite IH, orb_assoc.
Qed.

Lemma mem_drop (c : ascii) (n : nat) (s : string) :
  mem c (drop n s) = true -> mem c s = true.
Proof.
  revert s; induction n as [|n IH]; intros [|a s] H; cbn [drop mem] in *; auto.
  apply IH in H. rewrite H. apply orb_true_r.
Qed.

(** X5: a text without a double quote has no match, so that the scan of
    such a script calls no reader and adds no diagnostic. *)
Theorem no_quote_no_site {R : Type} {RD : Reader R} (text : string)
    (st : state R) :
  mem dquote text = false ->
  finditer search_cobj text = [] /\
  fold_left (check_match text) (finditer search_cobj text) st = st.
Proof.
  intros Hq.
  assert (E : finditer search_cobj text = []).
  { destruct (finditer search_cobj text) as [|m ms] eqn:E; [reflexivity|].
    exfalso.
    assert (Hin : In m (finditer search_cobj text)) by (rewrite E; now left).
    apply scan_site in Hin as (kw & arg & rest & Hc & _).
    destruct Hc as (_ & Hs & _).
    assert (Hm : mem dquote (drop (m_start m) text) = true).
    { rewrite Hs, mem_append. cbn [mem]. rewrite Ascii.eqb_refl.
      apply orb_true_r. }
    apply mem_drop in Hm. congruence. }
  rewrite E. split; reflexivity.
Qed.

Lemma no_quote_no_site_witness :
  mem dquote "-- the Pirate Shark patrol" = false /\
  finditer search_cobj "-- the Pirate Shark patrol" = [].
Proof.
  assert (H : mem dquote "-- the Pirate Shark patrol" = false) by reflexivity.
  split; [exact H|].
  exact (proj1 (no_quote_no_site (R := registry) "-- the Pirate Shark patrol"
                  (init_state no_readers) H)).
Defined.

(** ** The loop over the files, as a whole *)

Section WholeLoop.

Context {R : Type} {RD : Reader R}.

Implicit Types (st : state R) (rs : readers R).

Lemma primary_scan_outputs (cfg : config) (fs : string -> read_result)
    (files : list string) :
  forall st,
    stderr_lines (trace (final (primary_scan cfg fs files st)))
    ++ errors (final (primary_scan cfg fs files st))
    = stderr_lines (trace st) ++ errors st ++ outputs fs files (regs st).
Proof.
  induction files as [|f files IH]; intros st; cbn [primary_scan outputs].
  - cbn [final]. now rewrite app_nil_r.
  - rewrite process_file_spec. cbv zeta.
    destruct (fs f) as [text|msg|exn].
    + rewrite IH. cbn [trace errors regs].
      rewrite !stderr_lines_app, stderr_lines_progress, stderr_lines_map,
        stderr_lines_sites, stderr_lines_done.
      cbn [app]. now rewrite !app_nil_r, <- !app_assoc.
    + rewrite IH. cbn [trace errors regs].
      rewrite !stderr_lines_app, stderr_lines_progress, stderr_lines_map.
      cbn [stderr_lines app]. rewrite stderr_lines_done.
      now rewrite <- !app_assoc.
    + cbn [final trace errors].
      rewrite !stderr_lines_app, stderr_lines_progress, stderr_lines_map.
      cbn [app]. now rewrite !app_nil_r.
Qed.

(** X6: however a run ends, the lines on standard error followed by the
    list still pending are the warnings and the diagnostics of the files, in
    the order of the files and of the matches, each one once. *)
Theorem stderr_then_pending (cfg : config) (fs : string -> read_result)
    (files : list string) rs :
  stderr_lines (trace (final (dah_doctor cfg fs files rs)))
  ++ errors (final (dah_doctor cfg fs files rs))
  = outputs fs files rs.
Proof.
  pose proof (primary_scan_outputs cfg fs files (init_state rs)) as H.
  cbn [init_state trace errors regs stderr_lines app] in H.
  unfold dah_doctor.
  destruct (primary_scan cfg fs files (init_state rs)) as [st|exn st|st];
    cbn [final] in *; try exact H.
  destruct (verify_silent cfg st) as (He & _ & Hs). now rewrite He, Hs.
Qed.

End WholeLoop.

(** ** The cache of the texts *)

Lemma dict_set_in (key value : string) (d : list (string * string)) :
  NoDup (map fst d) ->
  NoDup (map fst (dict_set key value d)) /\
  forall k v,
    In (k, v) (dict_set key value d) <->
    (k = key /\ v = value) \/ (k <> key /\ In (k, v) d).
Proof.
  induction d as [|[k0 v0] d IH]; intros Hnd; cbn [dict_set map fst].
  - split; [repeat constructor; intros []|].
    intros k v. cbn [In]. split.
    + intros [E|[]]. injection E as <- <-. now left.
    + intros [[-> ->]|[_ []]]. now left.
  - cbn [map fst] in Hnd. inversion Hnd as [|x l Hnotin Hnd' Hx]; subst.
    destruct (String.eqb_spec k0 key) as [->|Hne].
    + split; [exact Hnd|]. intros k v. cbn [In]. split.
      * intros [E|Hin].
        -- injection E as <- <-. now left.
        -- right. split; [|now right].
           intros ->. apply Hnotin. apply in_map_iff. now exists (key, v).
      * intros [[-> ->]|[Hk [E|Hin]]]; [now left | | now right].
        injection E as -> _. congruence.
    + destruct (IH Hnd') as [IHnd IHin]. split.
      * cbn [map fst]. constructor; [|exact IHnd].
        intros (p & Hp & Hin)%in_map_iff. destruct p as [k v]. cbn in Hp. subst k.
        apply IHin in Hin as [[-> _]|[_ Hin]]; [congruence|].
        apply Hnotin. apply in_map_iff. now exists (k0, v).
      * intros k v. cbn [In]. rewrite IHin. split.
        -- intros [E|[H|[H1 H2]]]; [|now left|].
           ++ injection E as <- <-. right. split; [congruence | now left].
           ++ right. split; [exact H1 | now right].
        -- intros [H|[H1 [E|H2]]]; [right; now left | now left |].
           right. right. split; assumption.
Qed.

Section Cache.

Context {R : Type} {RD : Reader R}.

Lemma primary_scan_cache (cfg : config) (fs : string -> read_result)
    (files : list string) :
  (forall g, In g files -> forall exn, fs g <> ReadRaises exn) ->
  forall (seen : list string) (st : state R),
    NoDup (map fst (line st)) ->
    (forall file text,
       In (file, text) (line st) <-> In file seen /\ fs file = ReadOk text) ->
    NoDup (map fst (line (final (primary_scan cfg fs files st)))) /\
    (forall file text,
       In (file, text) (line (final (primary_scan cfg fs files st))) <->
       In file (seen ++ files) /\ fs file = ReadOk text).
Proof.
  induction files as [|f files IH]; intros Hok seen st Hnd Hin;
    cbn [primary_scan].
  - cbn [final]. rewrite app_nil_r. auto.
  - assert (Hok' : forall g, In g files -> forall exn, fs g <> ReadRaises exn)
      by (intros g Hg; apply Hok; now right).
    rewrite process_file_spec. cbv zeta.
    replace (seen ++ f :: files) with ((seen ++ [f]) ++ files)
      by (now rewrite <- app_assoc).
    destruct (fs f) as [text|msg|exn] eqn:E.
    + destruct (dict_set_in f text (line st) Hnd) as [Hnd' Hin'].
      apply IH; [exact Hok' | exact Hnd' |]. cbn [line].
      intros file t. rewrite Hin', Hin, in_app_iff. cbn [In]. split.
      * intros [[-> ->]|[Hne [Hs Hf]]]; [split; auto | split; auto].
      * intros [[Hs|[<-|[]]] Hf].
        -- destruct (String.eqb_spec file f) as [->|Hne].
           ++ left. split; [reflexivity | congruence].
           ++ right. auto.
        -- left. split; [reflexivity | congruence].
    + apply IH; [exact Hok' | exact Hnd |]. cbn [line].
      intros file t. rewrite Hin, in_app_iff. cbn [In]. split.
      * intros [Hs Hf]. auto.
      * intros [[Hs|[<-|[]]] Hf]; [auto | congruence].
    + exfalso. exact (Hok f (or_introl eq_refl) exn E).
Qed.

(** X7: when no file raises anything but [IOError], the cache of a run
    holds each file once, and it holds a file with a text exactly when the
    file is listed and reading it gives this text; a file that cannot be
    read is not cached. *)
Theorem cached_texts (cfg : config) (fs : string -> read_result)
    (files : list string) (rs : readers R) :
  (forall g, In g files -> forall exn, fs g <> ReadRaises exn) ->
  NoDup (map fst (line (final (dah_doctor cfg fs files rs)))) /\
  (forall file text,
     In (file, text) (line (final (dah_doctor cfg fs files rs))) <->
     In file files /\ fs file = ReadOk text).
Proof.
  intros Hok.
  destruct (primary_scan_cache cfg fs files Hok [] (init_state rs))
    as [Hnd Hin].
  - constructor.
  - intros file text. cbn. tauto.
  - cbn [app] in Hin. unfold dah_doctor.
    destruct (primary_scan cfg fs files (init_state rs)) as [st|exn st|st];
      cbn [final] in *; auto.
    destruct (verify_silent cfg st) as (_ & Hl & _). rewrite Hl. auto.
Qed.

End Cache.

Lemma cached_texts_witness :
  (forall g, In g ["a.lua"; "b.lua"; "c.lua"; "a.lua"]%string ->
             forall exn, example_fs g <> ReadRaises exn) /\
  NoDup (map fst (line (final
    (dah_doctor quiet example_fs ["a.lua"; "b.lua"; "c.lua"; "a.lua"]%string
       example_readers)))).
Proof.
  assert (H : forall g, In g ["a.lua"; "b.lua"; "c.lua"; "a.lua"]%string ->
                        forall exn, example_fs g <> ReadRaises exn).
  { intros g [<-|[<-|[<-|[<-|[]]]]] exn; vm_compute; discriminate. }
  split; [exact H | exact (proj1 (cached_texts _ _ _ _ H))].
Defined.

(** ** The readers that a scan touches *)

Lemma owner_call_kinds (label : string) (o : obj) :
  owner label = Some o <-> In (label, o) call_kinds.
Proof.
  unfold owner, call_kinds. cbn [In]. split.
  - repeat match goal with
    | |- context [String.eqb label ?k] =>
        destruct (String.eqb_spec label k) as [->|?]
    end; intros H; try discriminate; injection H as <-; tauto.
  - intros [E|[E|[E|[E|[]]]]]; injection E as <- <-; reflexivity.
Qed.

Section Frame.

Context {R : Type} {RD : Reader R}.

Lemma readers_after_frame (o : obj) (text : string) (ms : list match_obj) :
  (forall m, In m ms -> owner (func (info_of text m)) <> Some o) ->
  forall rs : readers R, get_obj o (readers_after text rs ms) = get_obj o rs.
Proof.
  induction ms as [|m ms IH]; intros Hno rs; cbn [readers_after]; [reflexivity|].
  cbv zeta.
  assert (Hm := Hno m (or_introl eq_refl)).
  assert (Hms : forall m', In m' ms -> owner (func (info_of text m')) <> Some o)
    by (intros m' H'; apply Hno; now right).
  destruct (owner (func (info_of text m))) as [o'|]; [|now apply IH].
  rewrite IH by exact Hms. apply get_set_obj_other. congruence.
Qed.

(** X8: processing a file leaves a reader as it is unless the text of the
    file has a match with the keyword of this reader; a file that cannot be
    read leaves all four as they are. *)
Theorem untouched_reader (cfg : config) (fs : string -> read_result)
    (file label : string) (o : obj) (st : state R) :
  In (label, o) call_kinds ->
  (forall text m,
     fs file = ReadOk text -> In m (finditer search_cobj text) ->
     group m "func" <> (label ++ "(")%string) ->
  get_obj o (regs (final (process_file cfg fs file st))) = get_obj o (regs st).
Proof.
  intros Hk Hno. rewrite process_file_spec. cbv zeta.
  destruct (fs file) as [text|msg|exn] eqn:E; cbn [final regs]; try reflexivity.
  apply readers_after_frame. intros m Hm Ho.
  apply (Hno text m eq_refl Hm).
  destruct (scan_info text m Hm) as (kw & arg & rest & _ & Hg & _ & Hl & _).
  apply owner_call_kinds in Ho.
  assert (E' : func (info_of text m) = label).
  { unfold call_kinds in Hk, Ho. cbn [In] in Hk, Ho.
    destruct Hk as [Hk|[Hk|[Hk|[Hk|[]]]]]; injection Hk as <- <-;
      destruct Ho as [Ho|[Ho|[Ho|[Ho|[]]]]]; congruence. }
  rewrite Hg, <- Hl, E'. reflexivity.
Qed.

End Frame.

Lemma untouched_reader_witness :
  In ("diff.apply"%string, Udata) call_kinds /\
  get_obj Udata (regs (final (process_file quiet example_fs "a.lua"
                                (init_state example_readers))))
  = get_obj Udata (regs (init_state example_readers)).
Proof.
  assert (Hk : In ("diff.apply"%string, Udata) call_kinds)
    by (vm_compute; tauto).
  split; [exact Hk|].
  apply (untouched_reader quiet example_fs "a.lua" "diff.apply" Udata _ Hk).
  intros text m Ht Hm. vm_compute in Ht. injection Ht as <-.
  vm_compute in Hm. destruct Hm as [<-|[<-|[]]]; vm_compute; discriminate.
Defined.

(** ** A run without a readable script *)

Section Unreadable.

Context {R : Type} {RD : Reader R}.

Lemma primary_scan_unreadable (cfg : config) (fs : string -> read_result)
    (files : list string) :
  (forall g, In g files -> exists msg, fs g = ReadIOError msg) ->
  forall st : state R,
    errors st = [] ->
    exists st',
      primary_scan cfg fs files st = Done st' /\
      regs st' = regs st /\ line st' = line st /\ errors st' = [] /\
      filter is_call (trace st') = filter is_call (trace st).
Proof.
  induction files as [|f files IH]; intros Hio st He; cbn [primary_scan].
  - exists st. auto.
  - destruct (Hio f (or_introl eq_refl)) as [msg Hf].
    rewrite process_file_spec. cbv zeta. rewrite Hf, He.
    match goal with
    | |- exists st', primary_scan _ _ _ ?s = _ /\ _ =>
        destruct (IH (fun g Hg => Hio g (or_intror Hg)) s eq_refl)
          as (st' & H1 & H2 & H3 & H4 & H5)
    end.
    exists st'. split; [exact H1|]. cbn [regs line trace] in *.
    repeat split; auto. rewrite H5.
    rewrite !filter_app. cbn [map filter is_call app].
    unfold progress, done. destruct (verbose cfg);
      cbn [filter is_call app]; now rewrite !app_nil_r.
Qed.

(** X9: when every listed file raises [IOError] on reading (and so when no
    file is listed), the run calls neither [find] nor [set_unknown]: the
    readers end as they began, the cache and the pending list are empty. *)
Theorem nothing_readable (cfg : config) (fs : string -> read_result)
    (files : list string) (rs : readers R) :
  (forall g, In g files -> exists msg, fs g = ReadIOError msg) ->
  regs (final (dah_doctor cfg fs files rs)) = rs /\
  line (final (dah_doctor cfg fs files rs)) = [] /\
  errors (final (dah_doctor cfg fs files rs)) = [] /\
  forall o a,
    ~ In (CallFind o a) (trace (final (dah_doctor cfg fs files rs))) /\
    ~ In (CallSetUnknown o a) (trace (final (dah_doctor cfg fs files rs))).
Proof.
  intros Hio.
  destruct (primary_scan_unreadable cfg fs files Hio (init_state rs) eq_refl)
    as (st & H1 & H2 & H3 & H4 & H5).
  unfold dah_doctor. rewrite H1.
  cbn [init_state regs line trace filter is_call] in H2, H3, H5.
  assert (Hcalls : forall e, is_call e = true -> ~ In e (trace st)).
  { intros e He Hin.
    assert (Hf : In e (filter is_call (trace st)))
      by (apply filter_In; auto).
    now rewrite H5 in Hf. }
  unfold verify. cbv zeta. unfold secondary_scan.
  change (line (emit [Stdout "Verifying ..."] st)) with (line st).
  rewrite H3. cbn [fold_left].
  assert (Hrep : forall cfg' (s : state R),
    regs (report cfg' s) = regs s /\ line (report cfg' s) = line s /\
    errors (report cfg' s) = errors s /\
    forall o a,
      (In (CallFind o a) (trace (report cfg' s)) -> In (CallFind o a) (trace s)) /\
      (In (CallSetUnknown o a) (trace (report cfg' s)) ->
       In (CallSetUnknown o a) (trace s))).
  { intros cfg' s. unfold report, emit. destruct (show_unused cfg');
      cbn [regs line errors trace]; repeat split; auto;
      rewrite ?in_app_iff; cbn [In]; intuition discriminate. }
  assert (Hemit : forall o a,
    ~ In (CallFind o a) (trace (emit [Stdout "Verifying ..."] st)) /\
    ~ In (CallSetUnknown o a) (trace (emit [Stdout "Verifying ..."] st))).
  { intros o a. unfold emit. cbn [trace]. rewrite !in_app_iff. cbn [In].
    pose proof (Hcalls (CallFind o a) eq_refl).
    pose proof (Hcalls (CallSetUnknown o a) eq_refl).
    intuition discriminate. }
  assert (Hfin : forall s : state R,
    s = report cfg (emit [Stdout "Verifying ..."] st) \/
    s = emit [Stdout "Verifying ..."] st ->
    regs s = rs /\ line s = [] /\ errors s = [] /\
    forall o a, ~ In (CallFind o a) (trace s) /\
                ~ In (CallSetUnknown o a) (trace s)).
  { intros s [->| ->].
    - destruct (Hrep cfg (emit [Stdout "Verifying ..."] st))
        as (Hr1 & Hr2 & Hr3 & Hr4).
      rewrite Hr1, Hr2, Hr3. cbn [emit regs line errors].
      repeat split; auto; intros Hin; apply Hr4 in Hin;
        pose proof (Hemit o a); tauto.
    - cbn [emit regs line errors]. repeat split; auto;
        intros Hin; pose proof (Hemit o a); tauto. }
  destruct (0 <? _)%nat; [destruct (build_mcobj _)|]; cbn [final];
    apply Hfin; auto.
Qed.

End Unreadable.

Lemma nothing_readable_witness :
  (forall g, In g ["b.lua"%string] -> exists msg, example_fs g = ReadIOError msg) /\
  regs (final (dah_doctor quiet example_fs ["b.lua"%string] example_readers))
  = example_readers.
Proof.
  assert (H : forall g, In g ["b.lua"%string] ->
                        exists msg, example_fs g = ReadIOError msg).
  { intros g [<-|[]]. eexists. vm_compute. reflexivity. }
  split; [exact H | exact (proj1 (nothing_readable _ _ _ _ H))].
Defined.

(** ** The flag [verbose] *)

Lemma audible_app (e1 e2 : list event) :
  audible (e1 ++ e2) = audible e1 ++ audible e2.
Proof.
  induction e1 as [|[] e1 IH]; cbn [audible app]; auto; now rewrite IH.
Qed.

Lemma audible_progress (cfg : config) (file : string) :
  audible (progress cfg file) = [].
Proof. unfold progress. now destruct (verbose cfg). Qed.

Lemma audible_done (cfg : config) : audible (done cfg) = [].
Proof. unfold done. now destruct (verbose cfg). Qed.

Section Verbose.

Context {R : Type} {RD : Reader R}.

Implicit Types (st : state R).

Lemma alike_refl st : alike st st.
Proof. repeat split. Qed.

Lemma emit_alike (evs : list event) st1 st2 :
  alike st1 st2 -> alike (emit evs st1) (emit evs st2).
Proof.
  intros (H1 & H2 & H3 & H4). unfold alike, emit. cbn [regs errors line trace].
  rewrite !audible_app, H4. auto.
Qed.

Lemma call_set_unknown_alike (o : obj) (a : string) st1 st2 :
  alike st1 st2 -> alike (call_set_unknown o a st1) (call_set_unknown o a st2).
Proof.
  intros (H1 & H2 & H3 & H4). unfold alike, call_set_unknown, emit, set_regs.
  cbn [regs errors line trace]. rewrite !audible_app, H4, H1. auto.
Qed.

Lemma fold_left_alike {B : Type} (f : state R -> B -> state R) (l : list B) :
  (forall a1 a2 b, alike a1 a2 -> alike (f a1 b) (f a2 b)) ->
  forall a1 a2, alike a1 a2 -> alike (fold_left f l a1) (fold_left f l a2).
Proof.
  intros Hf. induction l as [|b l IH]; intros a1 a2 H; cbn [fold_left]; auto.
Qed.

Lemma secondary_scan_alike (mcobj : list (string * regex)) st1 st2 :
  alike st1 st2 -> alike (secondary_scan mcobj st1) (secondary_scan mcobj st2).
Proof.
  intros H. unfold secondary_scan.
  replace (line st2) with (line st1) by apply H.
  apply fold_left_alike; [|exact H]. intros a1 a2 fc Ha. unfold rescan.
  apply fold_left_alike; [|exact Ha]. intros b1 b2 cc Hb.
  apply fold_left_alike; [|exact Hb]. intros c1 c2 m Hc. unfold mark_unknown.
  apply fold_left_alike; [|exact Hc]. intros d1 d2 ok Hd.
  destruct (String.eqb _ _); [now apply call_set_unknown_alike | exact Hd].
Qed.

Lemma verify_alike (cfg1 cfg2 : config) st1 st2 :
  show_unused cfg1 = show_unused cfg2 -> alike st1 st2 ->
  ending (verify cfg1 st1) = ending (verify cfg2 st2) /\
  alike (final (verify cfg1 st1)) (final (verify cfg2 st2)).
Proof.
  intros Hs H. unfold verify. cbv zeta.
  assert (H0 := emit_alike [Stdout "Verifying ..."] st1 st2 H).
  change (regs (emit [Stdout "Verifying ..."] st1)) with (regs st1).
  change (regs (emit [Stdout "Verifying ..."] st2)) with (regs st2).
  replace (regs st2) with (regs st1) by apply H.
  assert (Hrep : forall s1 s2 : state R, alike s1 s2 ->
            alike (report cfg1 s1) (report cfg2 s2)).
  { intros s1 s2 Ha. unfold report. rewrite Hs.
    destruct (show_unused cfg2); repeat apply emit_alike; exact Ha. }
  destruct (0 <? _)%nat; [destruct (build_mcobj _)|]; cbn [final ending];
    (split; [reflexivity|]); auto.
  apply Hrep. now apply secondary_scan_alike.
Qed.

Lemma process_file_alike (cfg1 cfg2 : config) (fs : string -> read_result)
    (file : string) st1 st2 :
  alike st1 st2 ->
  ending (process_file cfg1 fs file st1) = ending (process_file cfg2 fs file st2) /\
  alike (final (process_file cfg1 fs file st1))
        (final (process_file cfg2 fs file st2)).
Proof.
  intros (H1 & H2 & H3 & H4). rewrite !process_file_spec. cbv zeta.
  rewrite H1, H2, H3.
  destruct (fs file) as [text|msg|exn]; cbn [final ending];
    (split; [reflexivity|]); unfold alike; cbn [regs errors line trace];
    rewrite ?audible_app, ?audible_progress, ?audible_done, H4;
    cbn [audible app]; rewrite ?audible_done; auto.
Qed.

Lemma primary_scan_alike (cfg1 cfg2 : config) (fs : string -> read_result)
    (files : list string) :
  forall st1 st2,
    alike st1 st2 ->
    ending (primary_scan cfg1 fs files st1) = ending (primary_scan cfg2 fs files st2) /\
    alike (final (primary_scan cfg1 fs files st1))
          (final (primary_scan cfg2 fs files st2)).
Proof.
  induction files as [|f files IH]; intros st1 st2 H; cbn [primary_scan].
  - cbn [final ending]. auto.
  - destruct (process_file_alike cfg1 cfg2 fs f st1 st2 H) as [He Ha].
    destruct (process_file cfg1 fs f st1), (process_file cfg2 fs f st2);
      cbn [ending final] in *; try discriminate; auto.
Qed.

(** X10: the flag [verbose] changes nothing but the lines on standard
    output: two runs that differ only by it end the same way, with the same
    readers, the same pending list and cache, and the same lines on
    standard error and calls of the readers, in the same order. *)
Theorem verbose_only_prints (v1 v2 su : bool) (fs : string -> read_result)
    (files : list string) (rs : readers R) :
  ending (dah_doctor (mkConfig v1 su) fs files rs)
  = ending (dah_doctor (mkConfig v2 su) fs files rs) /\
  alike (final (dah_doctor (mkConfig v1 su) fs files rs))
        (final (dah_doctor (mkConfig v2 su) fs files rs)).
Proof.
  unfold dah_doctor.
  destruct (primary_scan_alike (mkConfig v1 su) (mkConfig v2 su) fs files
              (init_state rs) (init_state rs) (alike_refl _)) as [He Ha].
  destruct (primary_scan (mkConfig v1 su) fs files (init_state rs)),
           (primary_scan (mkConfig v2 su) fs files (init_state rs));
    cbn [ending final] in *; try discriminate; auto.
  now apply verify_alike.
Qed.

End Verbose.

(** ** What the secondary scan marks *)

Local Open Scope string_scope.

Lemma template_head (key t : string) :
  skip_ws (String newline indent16 ++ "(?P<" ++ key ++ ">" ++ t)
  = "(?P<" ++ key ++ ">" ++ t.
Proof. reflexivity. Qed.

Lemma parse_name_key (o : obj) (key t : string) :
  In (o, key) tocheck -> parse_name (key ++ ">" ++ t) EmptyString = Some (key, t).
Proof.
  unfold tocheck. cbn [In].
  intros [E|[E|[E|[E|[]]]]]; injection E as _ <-; reflexivity.
Qed.


Local Open Scope list_scope.




Section Marks.

Context {R : Type} {RD : Reader R}.

Implicit Types (st : state R).




End Marks.


(** ** The patterns of names of ordinary characters *)

Local Open Scope string_scope.

Lemma special_chars (c : ascii) :
  is_special c = false ->
  Ascii.eqb c ")" = false /\ Ascii.eqb c "|" = false /\ Ascii.eqb c "\" = false.
Proof.
  unfold is_special. cbn [mem]. rewrite !orb_false_iff.
  intros H. repeat split; rewrite Ascii.eqb_sym; tauto.
Qed.

Lemma parse_alts_name (n t : string) :
  all_plain n = true ->
  forall cur alts,
    parse_alts (replace_space "\s" n ++ t) cur alts =
    parse_alts t (cur ++ atoms_of n)%list alts.
Proof.
  induction n as [|c n IH]; intros Hp cur alts; cbn [replace_space atoms_of].
  - now rewrite app_nil_r.
  - cbn [all_plain] in Hp. apply andb_true_iff in Hp as [Hc Hn].
    unfold atom_of. destruct (Ascii.eqb_spec c " ") as [->|Hsp].
    + cbn [append parse_alts Ascii.eqb Bool.eqb]. rewrite IH by exact Hn.
      now rewrite <- app_assoc.
    + unfold plain_char in Hc. apply orb_true_iff in Hc as [Hc|Hc].
      { apply Ascii.eqb_eq in Hc. contradiction. }
      apply andb_true_iff in Hc as [Hw Hs].
      apply negb_true_iff in Hw, Hs.
      destruct (special_chars c Hs) as (H1 & H2 & H3).
      cbn [append parse_alts]. rewrite H1, H2, H3, Hw, Hs.
      rewrite IH by exact Hn. now rewrite <- app_assoc.
Qed.

Lemma atoms_of_nonempty (n : string) : n <> EmptyString -> atoms_of n <> [].
Proof. destruct n; [congruence | discriminate]. Qed.

Lemma parse_alternation (names : list string) (t : string) :
  names <> [] -> Forall plain_name names ->
  forall alts,
    parse_alts (alternation (map (replace_space "\s") names) ++ ")" ++ t) [] alts
    = Some ((alts ++ map name_regex names)%list, t).
Proof.
  induction names as [|n names IH]; intros Hne Hall alts; [congruence|].
  inversion Hall as [|x l [Hn Hp] Hrest]; subst.
  pose proof (atoms_of_nonempty n Hn) as Hat.
  destruct names as [|n' names].
  - cbn [map alternation]. rewrite parse_alts_name by exact Hp.
    cbn [app append parse_alts Ascii.eqb Bool.eqb].
    unfold name_regex. destruct (atoms_of n); [congruence | reflexivity].
  - cbn [map alternation] in *. rewrite !append_assoc.
    rewrite parse_alts_name by exact Hp.
    cbn [app append parse_alts Ascii.eqb Bool.eqb].
    destruct (atoms_of n) as [|a l] eqn:E; [congruence|].
    rewrite <- E. rewrite IH by (auto; discriminate).
    now rewrite <- app_assoc.
Qed.

Lemma compile_names (o : obj) (key n : string) (rest : list string) :
  In (o, key) tocheck ->
  Forall plain_name (n :: rest) ->
  re_compile (regex_text key (n :: rest)) =
  Some (Group key (alt_of (name_regex n) (map name_regex rest))).
Proof.
  intros Hk Hall. rewrite regex_text_spec by discriminate.
  unfold regex_template, re_compile. cbn [fst snd].
  rewrite !append_assoc, template_head, strip_prefix_append.
  rewrite (parse_name_key o key _ Hk).
  rewrite parse_alternation by (auto; discriminate).
  reflexivity.
Qed.

(** X12: for unused names that are not empty and are made of spaces and of
    characters that are neither white space nor special in a pattern, the
    text that the code builds for a category compiles, to the named group
    of the category around one alternative for each name, in the order of
    the names, a space of a name matching one white-space character and any
    other character itself. *)
Theorem compiled_pattern (o : obj) (key n : string) (rest : list string) :
  In (o, key) tocheck ->
  Forall plain_name (n :: rest) ->
  re_compile (regex_text key (n :: rest)) =
  Some (Group key (alt_of (name_regex n) (map name_regex rest))).
Proof. exact (compile_names o key n rest). Qed.

Lemma compiled_pattern_witness :
  In (Shipdata, "ship") tocheck /\
  Forall plain_name ["Lancelot"; "Pirate Shark"] /\
  re_compile (regex_text "ship" ["Lancelot"; "Pirate Shark"]) =
  Some (Group "ship" (alt_of (name_regex "Lancelot") [name_regex "Pirate Shark"])).
Proof.
  assert (Hk : In (Shipdata, "ship") tocheck) by (vm_compute; tauto).
  assert (Hp : Forall plain_name ["Lancelot"; "Pirate Shark"]).
  { repeat constructor; discriminate. }
  split; [exact Hk|]. split; [exact Hp|].
  exact (compiled_pattern Shipdata "ship" "Lancelot" ["Pirate Shark"] Hk Hp).
Defined.

Lemma exec_atom {X : Type} (c : ascii) (s : string) (g : groups)
    (k : string -> groups -> option X) :
  exec (atom_of c) s g k =
  match s with
  | String a s' => if char_ok c a then k s' g else None
  | EmptyString => None
  end.
Proof.
  unfold atom_of, char_ok. destruct (Ascii.eqb c " "); cbn [exec strip_prefix].
  - reflexivity.
  - destruct s as [|a s]; [reflexivity|]. now destruct (Ascii.eqb c a).
Qed.

Lemma exec_name {X : Type} (n : string) :
  forall (s : string) (g : groups) (k : string -> groups -> option X),
    exec (name_regex n) s g k =
    match spelled n s with
    | Some s' => k s' g
    | None => None
    end.
Proof.
  unfold name_regex. induction n as [|c n IH]; intros s g k.
  - reflexivity.
  - cbn [atoms_of spelled]. destruct n as [|c' n].
    + cbn [atoms_of seq_of spelled]. rewrite exec_atom.
      destruct s as [|a s]; [reflexivity|]. now destruct (char_ok c a).
    + change (seq_of (atom_of c :: atoms_of (String c' n)))
        with (Cat (atom_of c) (seq_of (atoms_of (String c' n)))).
      cbn [exec]. rewrite exec_atom.
      destruct s as [|a s]; [reflexivity|].
      destruct (char_ok c a); [apply IH | reflexivity].
Qed.

Lemma exec_names {X : Type} (n : string) (rest : list string) (s : string)
    (g : groups) (k : string -> groups -> option X) :
  (forall t g', k t g' <> None) ->
  exec (alt_of (name_regex n) (map name_regex rest)) s g k =
  match first_spelled (n :: rest) s with
  | Some (_, s') => k s' g
  | None => None
  end.
Proof.
  intros Hk. revert n. induction rest as [|n' rest IH]; intros n;
    cbn [map alt_of first_spelled].
  - rewrite exec_name. now destruct (spelled n s).
  - cbn [exec]. rewrite exec_name, IH. cbn [first_spelled].
    destruct (spelled n s) as [s'|]; [|reflexivity].
    destruct (k s' g) eqn:E; [reflexivity | now apply Hk in E].
Qed.

Lemma spelled_length (n : string) :
  forall s s', spelled n s = Some s' ->
    String.length s = String.length n + String.length s' /\
    s' = drop (String.length n) s /\
    spelled n (take (String.length n) s) = Some EmptyString.
Proof.
  induction n as [|c n IH]; intros s s' H; cbn [spelled] in H.
  - injection H as <-. cbn. auto.
  - destruct s as [|a s]; [discriminate|].
    destruct (char_ok c a) eqn:E; [|discriminate].
    apply IH in H as (H1 & H2 & H3). cbn [String.length drop take spelled].
    rewrite E. repeat split; [lia | exact H2 | exact H3].
Qed.

Lemma spelled_self (n t : string) : spelled n (n ++ t) = Some t.
Proof.
  induction n as [|c n IH]; cbn [spelled append]; [reflexivity|].
  unfold char_ok. destruct (Ascii.eqb_spec c " ") as [->|_].
  - exact IH.
  - now rewrite Ascii.eqb_refl.
Qed.

Lemma spelled_no_space (n : string) :
  mem " " n = false ->
  forall s s', spelled n s = Some s' -> s = n ++ s'.
Proof.
  induction n as [|c n IH]; intros Hm s s' H; cbn [spelled] in H.
  - now injection H as <-.
  - cbn [mem] in Hm. apply orb_false_iff in Hm as [Hc Hm].
    destruct s as [|a s]; [discriminate|]. unfold char_ok in H.
    rewrite Hc in H. destruct (Ascii.eqb_spec c a) as [<-|]; [|discriminate].
    cbn [append]. f_equal. now apply IH.
Qed.

Lemma first_spelled_in (names : list string) (s n s' : string) :
  first_spelled names s = Some (n, s') -> In n names /\ spelled n s = Some s'.
Proof.
  induction names as [|n0 names IH]; cbn [first_spelled]; [discriminate|].
  destruct (spelled n0 s) as [t|] eqn:E.
  - intros H; injection H as <- <-. split; [now left | exact E].
  - intros H. apply IH in H as [H1 H2]. split; [now right | exact H2].
Qed.

(** What the compiled pattern of some names matches at the head of a
    text. *)
Lemma match_at_names (key n : string) (rest : list string) (s : string) :
  match_at (Group key (alt_of (name_regex n) (map name_regex rest))) s =
  match first_spelled (n :: rest) s with
  | Some (n', _) =>
      Some (String.length n', [(key, take (String.length n') s)])
  | None => None
  end.
Proof.
  unfold match_at. cbn [exec]. rewrite exec_names by discriminate.
  destruct (first_spelled (n :: rest) s) as [[n' s']|] eqn:E; [|reflexivity].
  apply first_spelled_in in E as [_ E]. apply spelled_length in E as (H1 & _ & _).
  replace (String.length s - String.length s') with (String.length n') by lia.
  reflexivity.
Qed.

(** X13: when the unused names of a category are of ordinary characters,
    every match of the category's pattern in a text spells one of these
    names, a space of the name standing as one white-space character: the
    text of the match is that of its group, it is as long as the name, and a
    name without a space is matched by itself only. *)
Theorem rescan_spells (o : obj) (key n : string) (rest : list string)
    (cobj : regex) (text : string) (m : match_obj) :
  In (o, key) tocheck ->
  Forall plain_name (n :: rest) ->
  re_compile (regex_text key (n :: rest)) = Some cobj ->
  In m (finditer cobj text) ->
  exists n',
    In n' (n :: rest) /\
    m_end m = m_start m + String.length n' /\
    group m key = take (String.length n') (drop (m_start m) text) /\
    spelled n' (group m key) = Some EmptyString /\
    (mem " " n' = false -> group m key = n').
Proof.
  intros Hk Hp Hc Hm.
  rewrite (compile_names o key n rest Hk Hp) in Hc. injection Hc as <-.
  apply finditer_spec in Hm as (len & Hat & He & _).
  rewrite match_at_names in Hat.
  destruct (first_spelled (n :: rest) (drop (m_start m) text))
    as [[n' s']|] eqn:E; [|discriminate].
  injection Hat as <- Hg. apply first_spelled_in in E as [Hin E].
  assert (Hgr : group m key = take (String.length n') (drop (m_start m) text)).
  { unfold group. rewrite <- Hg. cbn [lookup_group].
    now rewrite String.eqb_refl. }
  exists n'. split; [exact Hin|]. split; [exact He|]. split; [exact Hgr|].
  destruct (spelled_length _ _ _ E) as (_ & _ & Hs).
  rewrite Hgr. split; [exact Hs|].
  intros Hm. apply (spelled_no_space n' Hm) in Hs.
  now rewrite append_empty_r in Hs.
Qed.

Lemma rescan_spells_witness :
  In (Shipdata, "ship") tocheck /\
  Forall plain_name ["Lancelot"] /\
  re_compile (regex_text "ship" ["Lancelot"]) = Some lancelot_cobj /\
  In lancelot_match (finditer lancelot_cobj comment_text) /\
  exists n',
    In n' ["Lancelot"] /\
    m_end lancelot_match = m_start lancelot_match + String.length n' /\
    group lancelot_match "ship"
    = take (String.length n') (drop (m_start lancelot_match) comment_text) /\
    spelled n' (group lancelot_match "ship") = Some EmptyString /\
    (mem " " n' = false -> group lancelot_match "ship" = n').
Proof.
  assert (Hk : In (Shipdata, "ship") tocheck) by (vm_compute; tauto).
  assert (Hp : Forall plain_name ["Lancelot"]) by (repeat constructor; discriminate).
  assert (Hc : re_compile (regex_text "ship" ["Lancelot"]) = Some lancelot_cobj)
    by (vm_compute; reflexivity).
  assert (Hm : In lancelot_match (finditer lancelot_cobj comment_text))
    by (vm_compute; tauto).
  split; [exact Hk|]. split; [exact Hp|]. split; [exact Hc|]. split; [exact Hm|].
  exact (rescan_spells Shipdata "ship" "Lancelot" [] lancelot_cobj comment_text
           lancelot_match Hk Hp Hc Hm).
Defined.

Local Open Scope list_scope.

Lemma least_position (P : nat -> bool) (p0 : nat) :
  P p0 = true ->
  exists p, p <= p0 /\ P p = true /\ forall k, k < p -> P k = false.
Proof.
  intros H0.
  assert (H : forall n,
    (exists p, p <= n /\ P p = true /\ forall k, k < p -> P k = false) \/
    (forall k, k <= n -> P k = false)).
  { induction n as [|n [IH|IH]].
    - destruct (P 0) eqn:E.
      + left. exists 0. repeat split; auto. intros k Hk. lia.
      + right. intros k Hk. now replace k with 0 by lia.
    - left. destruct IH as (p & Hp & H1 & H2). exists p. auto.
    - destruct (P (S n)) eqn:E.
      + left. exists (S n). repeat split; auto. intros k Hk. apply IH. lia.
      + right. intros k Hk. destruct (Nat.eq_dec k (S n)) as [->|Hne]; auto.
        apply IH. lia. }
  destruct (H p0) as [Hex|Hno]; [exact Hex|].
  rewrite Hno in H0 by lia. discriminate.
Qed.

Lemma first_spelled_some (names : list string) (n s : string) :
  In n names -> spelled n s <> None -> first_spelled names s <> None.
Proof.
  induction names as [|n0 names IH]; intros Hin Hs; [contradiction|].
  cbn [first_spelled]. destruct (spelled n0 s) eqn:E; [discriminate|].
  destruct Hin as [->|Hin]; [congruence | now apply IH].
Qed.

(** In a text where a name without a space stands and no other of the
    names is spelled, the scan by the pattern of the names reports a match
    whose text is this name. *)
Lemma lone_name_matched (key n0 : string) (rest : list string)
    (n text : string) :
  In n (n0 :: rest) -> mem " " n = false -> occurs_in n text ->
  (forall n', In n' (n0 :: rest) -> n' <> n -> ~ spelled_in n' text) ->
  exists m,
    In m (finditer (Group key (alt_of (name_regex n0) (map name_regex rest))) text)
    /\ group m key = n.
Proof.
  intros Hin Hsp (pre & post & ->) Hothers.
  set (text := (pre ++ n ++ post)%string) in *.
  set (cobj := Group key (alt_of (name_regex n0) (map name_regex rest))).
  set (P := fun p => match match_at cobj (drop p text) with
                     | Some _ => true | None => false end).
  assert (H0 : P (String.length pre) = true).
  { unfold P, cobj. rewrite match_at_names. unfold text. rewrite drop_append.
    destruct (first_spelled (n0 :: rest) (n ++ post)%string) as [[n' s']|] eqn:E;
      [reflexivity|].
    exfalso. apply (first_spelled_some (n0 :: rest) n (n ++ post)%string Hin);
      [rewrite spelled_self; discriminate | exact E]. }
  destruct (least_position P _ H0) as (p & Hp & HP & Hleast).
  assert (Hlen : p <= String.length text).
  { unfold text. rewrite length_append. lia. }
  unfold P in HP. destruct (match_at cobj (drop p text)) as [[len g]|] eqn:Eat;
    [|discriminate].
  pose proof Eat as Eat'. unfold cobj in Eat'. rewrite match_at_names in Eat'.
  destruct (first_spelled (n0 :: rest) (drop p text)) as [[n' s']|] eqn:E;
    [|discriminate].
  injection Eat' as <- <-. apply first_spelled_in in E as [Hn' E].
  assert (n' = n).
  { destruct (string_dec n' n) as [|Hne]; [assumption|].
    exfalso. apply (Hothers n' Hn' Hne). exists p. split; [exact Hlen|].
    rewrite E. discriminate. }
  subst n'.
  exists (mkMatch (0 + p) (0 + p + String.length n)
            [(key, take (String.length n) (drop p text))]).
  split.
  - assert (Hhd : hd_error (finditer cobj text)
                  = Some (mkMatch (0 + p) (0 + p + String.length n)
                            [(key, take (String.length n) (drop p text))])).
    { apply finditer_from_first; [exact Hlen | | exact Eat].
      intros k Hk. apply Hleast in Hk. unfold P in Hk.
      now destruct (match_at cobj (drop k text)). }
    destruct (finditer cobj text); [discriminate|].
    injection Hhd as ->. now left.
  - unfold group. cbn [m_groups lookup_group]. rewrite String.eqb_refl.
    apply (spelled_no_space n Hsp) in E. rewrite E. apply take_append.
Qed.

Section Called.

Context {R : Type} {RD : Reader R}.

Variables (o : obj) (n : string).

Implicit Types (st : state R).

Lemma call_set_unknown_called (o' : obj) (a : string) st :
  called o n st -> called o n (call_set_unknown o' a st).
Proof.
  intros H. unfold called, call_set_unknown, emit. cbn [trace].
  apply in_or_app. now left.
Qed.

Lemma mark_unknown_called (category : string) st (m : match_obj) :
  called o n st -> called o n (mark_unknown category st m).
Proof.
  unfold mark_unknown. apply fold_left_invariant.
  intros a [o' key] _ Ha. destruct (String.eqb _ _); [|exact Ha].
  now apply call_set_unknown_called.
Qed.

Lemma secondary_scan_calls (mcobj : list (string * regex)) st
    (file text key : string) (cobj : regex) (m : match_obj) :
  In (o, key) tocheck -> In (key, cobj) mcobj -> In (file, text) (line st) ->
  In m (finditer cobj text) -> group m key = n ->
  called o n (secondary_scan mcobj st).
Proof.
  intros Ho Hc Hf Hm Hg. unfold secondary_scan.
  apply (fold_left_reach (called o n) _ _ (file, text)); [| exact Hf |].
  - intros a fc. unfold rescan. apply fold_left_invariant. intros a' cc _.
    apply fold_left_invariant. intros a'' m' _. apply mark_unknown_called.
  - intros a. unfold rescan.
    apply (fold_left_reach (called o n) _ _ (key, cobj)); [| exact Hc |].
    + intros a' cc. apply fold_left_invariant. intros a'' m' _.
      apply mark_unknown_called.
    + intros a'. cbn [fst snd].
      apply (fold_left_reach (called o n) _ _ m); [| exact Hm |].
      * intros a'' m'. apply mark_unknown_called.
      * intros a''. unfold mark_unknown.
        apply (fold_left_reach (called o n) _ _ (o, key)); [| exact Ho |].
        -- intros b [o' key'] Hb. destruct (String.eqb _ _); [|exact Hb].
           now apply call_set_unknown_called.
        -- intros b. cbn [fst snd]. rewrite String.eqb_refl, Hg.
           unfold called, call_set_unknown, emit. cbn [trace].
           apply in_or_app. right. now left.
Qed.

(** X14: when the unused names of a reader are of ordinary characters, a
    name among them that has no space and stands in a cached text in which
    no other of them is spelled is passed to [set_unknown] of this reader
    by a run that returns. *)
Theorem lone_name_marked (cfg : config) (st st' : state R)
    (key file text : string) :
  verify cfg st = Done st' ->
  In (o, key) tocheck ->
  Forall plain_name (get_unused (get_obj o (regs st))) ->
  In n (get_unused (get_obj o (regs st))) ->
  mem " " n = false ->
  In (file, text) (line st) ->
  occurs_in n text ->
  (forall n', In n' (get_unused (get_obj o (regs st))) -> n' <> n ->
              ~ spelled_in n' text) ->
  In (CallSetUnknown o n) (trace st').
Proof.
  intros Hv Ho Hp Hn Hsp Hf Hocc Hothers.
  destruct (get_unused (get_obj o (regs st))) as [|n0 rest] eqn:Ed;
    [contradiction|].
  assert (Hud : In (key, n0 :: rest) (unused_data (regs st))).
  { rewrite <- Ed. apply unused_data_in; [exact Ho|]. rewrite Ed. discriminate. }
  pose proof (compile_names o key n0 rest Ho Hp) as Hc.
  destruct (lone_name_matched key n0 rest n text Hn Hsp Hocc Hothers)
    as (m & Hm & Hg).
  unfold verify in Hv. cbv zeta in Hv.
  change (regs (emit [Stdout "Verifying ..."] st)) with (regs st) in Hv.
  destruct (unused_data (regs st)) as [|u ud] eqn:Eud; [contradiction|].
  cbn [List.length Nat.ltb Nat.leb] in Hv.
  destruct (build_mcobj (u :: ud)) as [mcobj|] eqn:Eb; [|discriminate].
  injection Hv as <-.
  assert (Hin : called o n
                   (secondary_scan mcobj (emit [Stdout "Verifying ..."] st))).
  { apply (secondary_scan_calls mcobj _ file text key
             (Group key (alt_of (name_regex n0) (map name_regex rest))) m);
      auto.
    eapply build_mcobj_in; eauto. }
  unfold called in Hin. unfold report, emit.
  destruct (show_unused cfg); cbn [trace]; rewrite ?in_app_iff; auto.
Qed.

End Called.

Lemma lone_name_marked_witness :
  verify quiet comment_state = Done (final (verify quiet comment_state)) /\
  In "Lancelot"%string (get_unused (get_obj Shipdata (regs comment_state))) /\
  occurs_in "Lancelot" comment_text /\
  In (CallSetUnknown Shipdata "Lancelot")
     (trace (final (verify quiet comment_state))).
Proof.
  assert (Hv : verify quiet comment_state
               = Done (final (verify quiet comment_state)))
    by (vm_compute; reflexivity).
  assert (Hn : In "Lancelot"%string
                 (get_unused (get_obj Shipdata (regs comment_state))))
    by (vm_compute; tauto).
  assert (Hocc : occurs_in "Lancelot" comment_text).
  { exists ("player.addShip(" ++ quoted "Llama" ++ ") -- not the ")%string,
           EmptyString. reflexivity. }
  split; [exact Hv|]. split; [exact Hn|]. split; [exact Hocc|].
  apply (lone_name_marked Shipdata "Lancelot" quiet comment_state _ "ship"
           "a.lua" comment_text Hv); auto.
  - vm_compute. tauto.
  - vm_compute. repeat constructor. discriminate.
  - vm_compute. tauto.
  - intros n' Hn' Hne. vm_compute in Hn'. destruct Hn' as [<-|[]]. congruence.
Defined.

Lemma build_mcobj_some (ud : list (string * list string)) :
  (forall key data, In (key, data) ud ->
                    re_compile (regex_text key data) <> None) ->
  exists mc, build_mcobj ud = Some mc.
Proof.
  induction ud as [|[k d] ud IH]; intros H; cbn [build_mcobj].
  - now exists [].
  - destruct (re_compile (regex_text k d)) as [c|] eqn:E.
    + destruct IH as [mc ->]; [intros key data Hin; apply H; now right|].
      now eexists.
    + exfalso. exact (H k d (or_introl eq_refl) E).
Qed.

(** X15: when the unused names of the four readers are of ordinary
    characters, every pattern of the secondary scan compiles and what
    follows the loop over the files runs to its end. *)
Theorem plain_names_return {R : Type} {RD : Reader R} (cfg : config)
    (st : state R) :
  (forall o key, In (o, key) tocheck ->
                 Forall plain_name (get_unused (get_obj o (regs st)))) ->
  exists st', verify cfg st = Done st'.
Proof.
  intros Hp. unfold verify. cbv zeta.
  change (regs (emit [Stdout "Verifying ..."] st)) with (regs st).
  destruct (build_mcobj_some (unused_data (regs st))) as [mc ->].
  - intros key data Hin.
    apply unused_data_keys in Hin as (Hne & o & Ho & ->).
    specialize (Hp o key Ho).
    destruct (get_unused (get_obj o (regs st))) as [|n rest]; [congruence|].
    rewrite (compile_names o key n rest Ho Hp). discriminate.
  - destruct (0 <? _)%nat; eexists; reflexivity.
Qed.

Lemma plain_names_return_witness :
  (forall o key, In (o, key) tocheck ->
     Forall plain_name (get_unused (get_obj o (regs comment_state)))) /\
  exists st', verify quiet comment_state = Done st'.
Proof.
  assert (H : forall o key, In (o, key) tocheck ->
     Forall plain_name (get_unused (get_obj o (regs comment_state)))).
  { intros o key Hin. vm_compute in Hin.
    destruct Hin as [E|[E|[E|[E|[]]]]]; injection E as <- _; vm_compute;
      repeat constructor; discriminate. }
  split; [exact H | exact (plain_names_return quiet comment_state H)].
Defined.

(** ** The list of scripts *)

Local Open Scope string_scope.

Lemma ends_lua_iff (filename : string) :
  ends_lua filename = true <-> exists stem, filename = stem ++ "lua".
Proof.
  unfold ends_lua. rewrite String.eqb_eq. split.
  - intros H. exists (take (String.length filename - 3) filename).
    rewrite <- H. symmetry. apply take_drop.
  - intros [stem ->]. rewrite length_append. cbn [String.length].
    replace (String.length stem + 3 - 3) with (String.length stem) by lia.
    apply drop_append.
Qed.

Lemma path_join_suffix (a b : string) : exists pre, path_join a b = pre ++ b.
Proof.
  unfold path_join. destruct (starts_with_sep b).
  - now exists EmptyString.
  - destruct a as [|c a]; [now exists EmptyString|].
    destruct (ends_with_sep (String c a)).
    + now exists (String c a).
    + exists (String c a ++ "/"). now rewrite append_assoc.
Qed.

Lemma ends_lua_join (a b : string) :
  ends_lua b = true -> ends_lua (path_join a b) = true.
Proof.
  intros [stem ->]%ends_lua_iff. destruct (path_join_suffix a (stem ++ "lua"))
    as [pre ->].
  apply ends_lua_iff. exists (pre ++ stem). now rewrite append_assoc.
Qed.

Local Open Scope list_scope.

Lemma addLuaFile_spec (files : list string) (root : string) :
  forall luaScripts,
    addLuaFile files root luaScripts =
    luaScripts ++ map (path_join root) (filter ends_lua files).
Proof.
  unfold addLuaFile. induction files as [|f files IH]; intros scripts;
    cbn [fold_left filter map].
  - now rewrite app_nil_r.
  - rewrite IH. destruct (ends_lua f); [|reflexivity].
    cbn [map]. now rewrite <- app_assoc.
Qed.

(** X16: [addLuaFile] leaves the scripts already listed in front and adds,
    in the order of [files], the path under [root] of the names whose last
    three characters are l, u, a, and of no other name; a dot before them
    is not asked for. *)
Theorem addLuaFile_takes (files : list string) (root : string)
    (luaScripts : list string) :
  addLuaFile files root luaScripts =
  luaScripts ++ map (path_join root) (filter ends_lua files) /\
  (forall filename,
     ends_lua filename = true <-> exists stem, filename = (stem ++ "lua")%string).
Proof. split; [apply addLuaFile_spec | apply ends_lua_iff]. Qed.

Lemma add_walked_spec (tree : walk_result) :
  forall luaScripts, add_walked tree luaScripts = luaScripts ++ lua_paths tree.
Proof.
  unfold add_walked, lua_paths.
  induction tree as [|t tree IH]; intros scripts; cbn [fold_left flat_map].
  - now rewrite app_nil_r.
  - rewrite IH, addLuaFile_spec. now rewrite <- app_assoc.
Qed.

Lemma add_lua_elements_spec (missionpath : string) (lfs : list element) :
  forall luaScripts,
    add_lua_elements missionpath lfs luaScripts =
    match texts_of lfs with
    | Some ts =>
        Ok (luaScripts
            ++ map (fun t => path_join missionpath (t ++ ".lua")%string) ts)
    | None => Raise "TypeError"
    end.
Proof.
  induction lfs as [|lf lfs IH]; intros scripts;
    cbn [add_lua_elements texts_of].
  - now rewrite app_nil_r.
  - destruct (text_of lf) as [t|]; [|reflexivity].
    rewrite IH. destruct (texts_of lfs); [|reflexivity].
    cbn [map]. now rewrite <- app_assoc.
Qed.

Lemma texts_of_app (l1 l2 : list element) :
  texts_of (l1 ++ l2) =
  match texts_of l1, texts_of l2 with
  | Some t1, Some t2 => Some (t1 ++ t2)
  | _, _ => None
  end.
Proof.
  induction l1 as [|e l1 IH]; cbn [app texts_of].
  - now destruct (texts_of l2).
  - rewrite IH. destruct (text_of e); [|reflexivity].
    destruct (texts_of l1), (texts_of l2); reflexivity.
Qed.

Lemma add_missions_spec (missionpath : string) (missions : list element) :
  forall luaScripts,
    add_missions missionpath missions luaScripts =
    match texts_of (lua_elements missions) with
    | Some ts =>
        Ok (luaScripts
            ++ map (fun t => path_join missionpath (t ++ ".lua")%string) ts)
    | None => Raise "TypeError"
    end.
Proof.
  unfold lua_elements.
  induction missions as [|ms missions IH]; intros scripts;
    cbn [add_missions flat_map texts_of].
  - now rewrite app_nil_r.
  - rewrite add_lua_elements_spec, texts_of_app.
    destruct (texts_of (findall "lua" ms)) as [t1|]; [|reflexivity].
    rewrite IH. destruct (texts_of (flat_map (findall "lua") missions));
      [|reflexivity].
    now rewrite map_app, <- app_assoc.
Qed.

Lemma init_scripts (args : settings) (d : disk) :
  result_map luaScripts (sanitizer_init args d) =
  result_map
    (fun listed =>
       listed ++ lua_paths (walk d (basepath args ++ "/scripts/")%string)
       ++ lua_paths (walk d (basepath args ++ "/dat/events/")%string))
    (listed_missions args d).
Proof.
  unfold sanitizer_init, listed_missions. cbv zeta.
  assert (E : forall a : settings,
    basepath a = basepath args -> missionpath a = missionpath args ->
    use a = use args ->
    result_map luaScripts
      match
        (if String.eqb (use a) "missionxml"
         then dirtyfiles_from_xml d (mkSanitizer a [] [])
         else if String.eqb (use a) "rawfiles"
              then Ok (dirtyfiles_from_directory d (mkSanitizer a [] []))
              else Ok (mkSanitizer a [] []))
      with
      | Ok s' => Ok (add_scripts_and_events d s')
      | Raise exn => Raise exn
      end =
    result_map
      (fun listed =>
         listed ++ lua_paths (walk d (basepath args ++ "/scripts/")%string)
         ++ lua_paths (walk d (basepath args ++ "/dat/events/")%string))
      (if String.eqb (use args) "missionxml"
       then
         match parse d (path_join (basepath args) "dat/mission.xml") with
         | XmlRaises exn => Raise exn
         | XmlOk root =>
             match texts_of (lua_elements (findall "mission" root)) with
             | Some ts =>
                 Ok (map (fun t => path_join (missionpath args)
                                     (t ++ ".lua")%string) ts)
             | None => Raise "TypeError"
             end
         end
       else if String.eqb (use args) "rawfiles"
            then Ok (lua_paths (walk d (missionpath args)))
            else Ok [])).
  { intros a Hb Hm Hu. rewrite Hu.
    destruct (String.eqb (use args) "missionxml").
    - unfold dirtyfiles_from_xml. cbn [config_of luaScripts]. rewrite Hb, Hm.
      destruct (parse d _) as [root|exn]; [|reflexivity].
      rewrite add_missions_spec.
      destruct (texts_of _) as [ts|]; [|reflexivity].
      cbn [result_map app]. unfold add_scripts_and_events.
      cbn [config_of luaScripts]. rewrite !add_walked_spec, Hb.
      now rewrite <- app_assoc.
    - destruct (String.eqb (use args) "rawfiles"); cbn [result_map];
        unfold add_scripts_and_events, dirtyfiles_from_directory;
        cbn [config_of luaScripts]; rewrite !add_walked_spec, Hb, ?Hm;
        cbn [app]; now rewrite <- ?app_assoc. }
  destruct (datpath args); apply E; reflexivity.
Qed.

(** X17: the constructor lists the scripts of the missions, then those
    under [basepath/scripts/], then those under [basepath/dat/events/].  The
    scripts of the missions are, for [missionxml], one path per [lua]
    element of the [mission] elements of the mission list, in document
    order; for [rawfiles], the scripts under [missionpath]; for any other
    value, none.  The constructor fails only for [missionxml], when the
    mission list cannot be parsed or when a [lua] element has no text. *)
Theorem sanitizer_init_scripts (args : settings) (d : disk) :
  result_map luaScripts (sanitizer_init args d) =
  result_map
    (fun listed =>
       listed ++ lua_paths (walk d (basepath args ++ "/scripts/")%string)
       ++ lua_paths (walk d (basepath args ++ "/dat/events/")%string))
    (listed_missions args d).
Proof. exact (init_scripts args d). Qed.

Lemma lua_paths_end (tree : walk_result) :
  Forall (fun p => ends_lua p = true) (lua_paths tree).
Proof.
  unfold lua_paths. apply Forall_forall. intros p Hin.
  apply in_flat_map in Hin as (t & _ & Hin).
  apply in_map_iff in Hin as (f & <- & Hf).
  apply filter_In in Hf as [_ Hf]. now apply ends_lua_join.
Qed.

Lemma init_scripts_end (args : settings) (d : disk) (s : sanitizer) :
  sanitizer_init args d = Ok s ->
  Forall (fun p => ends_lua p = true) (luaScripts s).
Proof.
  intros H. pose proof (init_scripts args d) as E.
  rewrite H in E. cbn [result_map] in E.
  destruct (listed_missions args d) as [listed|exn] eqn:El; [|discriminate].
  cbn [result_map] in E. injection E as ->.
  repeat (apply Forall_app; split); try apply lua_paths_end.
  unfold listed_missions in El.
  destruct (String.eqb (use args) "missionxml").
  - destruct (parse d _) as [root|]; [|discriminate].
    destruct (texts_of _) as [ts|]; [|discriminate]. injection El as <-.
    apply Forall_forall. intros p (t & <- & _)%in_map_iff.
    apply ends_lua_join. apply ends_lua_iff. exists (t ++ ".")%string.
    now rewrite append_assoc.
  - destruct (String.eqb (use args) "rawfiles"); injection El as <-;
      [apply lua_paths_end | constructor].
Qed.

(** X18: every path that the constructor lists ends with the three
    characters l, u, a, whatever the disk holds and whatever the value of
    [use]. *)
Theorem listed_scripts_end_in_lua (args : settings) (d : disk) (s : sanitizer) :
  sanitizer_init args d = Ok s ->
  Forall (fun p => ends_lua p = true) (luaScripts s).
Proof. exact (init_scripts_end args d s). Qed.

Lemma listed_scripts_end_in_lua_witness :
  result_map luaScripts (sanitizer_init (example_args "missionxml") example_disk)
  = Ok ["/naev/dat/missions/neutral/cargo.lua"; "/opt/extra.lua";
        "/naev/scripts/jumpdist.lua"]%string /\
  result_map luaScripts (sanitizer_init (example_args "rawfiles") example_disk)
  = Ok ["/naev/dat/missions/intro.lua"; "/naev/dat/missions/neutral/cargo.lua";
        "/naev/dat/missions/neutral/oldlua"; "/naev/scripts/jumpdist.lua"]%string /\
  exists s,
    sanitizer_init (example_args "rawfiles") example_disk = Ok s /\
    Forall (fun p => ends_lua p = true) (luaScripts s).
Proof.
  split; [vm_compute; reflexivity|]. split; [vm_compute; reflexivity|].
  destruct (sanitizer_init (example_args "rawfiles") example_disk) as [s|exn] eqn:E.
  - exists s. split; [reflexivity|].
    exact (listed_scripts_end_in_lua _ _ s E).
  - vm_compute in E. discriminate E.
Defined.

(** ** From the list of scripts to the cache *)

Section Pipeline.

Context {R : Type} {RD : Reader R}.



End Pipeline.


(** ** The order of the sites *)




(** ** What follows the loop *)

(** X21: for a category with something unused, the text of the pattern is
    the template with, in the place of its [%s], the names in the order of
    [data], every one of them, repeated ones too, joined by bars, each space
    of a name written as a backslash and an s. *)
Theorem pattern_text (category : string) (data : list string) :
  data <> [] ->
  regex_text category data =
  (fst (regex_template category)
   ++ alternation (map (replace_space "\s") data)
   ++ snd (regex_template category))%string.
Proof. exact (regex_text_spec category data). Qed.

Lemma pattern_text_witness :
  ["Pirate Shark"; "Llama"]%string <> [] /\
  regex_text "fleet" ["Pirate Shark"; "Llama"] =
  (fst (regex_template "fleet")
   ++ alternation (map (replace_space "\s") ["Pirate Shark"; "Llama"])
   ++ snd (regex_template "fleet"))%string.
Proof.
  assert (H : ["Pirate Shark"; "Llama"]%string <> []) by discriminate.
  split; [exact H | exact (pattern_text "fleet" _ H)].
Defined.

(** X22: [unused_data] has an entry for a key exactly when the reader of
    this key has something unused, and the entry is what [get_unused] of
    this reader returns; the compiled patterns have the same keys, in the
    same order. *)
Theorem unused_categories {R : Type} {RD : Reader R} (rs : readers R) :
  (forall key data,
     In (key, data) (unused_data rs) <->
     data <> [] /\
     exists o, In (o, key) tocheck /\ data = get_unused (get_obj o rs)) /\
  (forall mcobj,
     build_mcobj (unused_data rs) = Some mcobj ->
     map fst mcobj = map fst (unused_data rs)).
Proof.
  split.
  - intros key data. split; [apply unused_data_keys|].
    intros (Hne & o & Ho & ->). now apply unused_data_in.
  - intros mcobj. apply build_mcobj_keys.
Qed.

Lemma unused_categories_witness :
  exists mcobj,
    build_mcobj (unused_data example_readers) = Some mcobj /\
    map fst mcobj = map fst (unused_data example_readers).
Proof.
  destruct (build_mcobj (unused_data example_readers)) as [mcobj|] eqn:E.
  - exists mcobj. split; [reflexivity|].
    exact (proj2 (unused_categories example_readers) mcobj E).
  - vm_compute in E. discriminate E.
Defined.

Section AfterLoopEvents.

Context {R : Type} {RD : Reader R}.

Implicit Types (st : state R).

(** X23: nothing that follows the loop over the files writes on standard
    error or touches the pending list or the cache: the diagnostics that
    are pending when the loop ends stay unprinted. *)
Theorem after_loop_silent (cfg : config) st :
  errors (final (verify cfg st)) = errors st /\
  line (final (verify cfg st)) = line st /\
  stderr_lines (trace (final (verify cfg st))) = stderr_lines (trace st).
Proof. exact (verify_silent cfg st). Qed.

Lemma grown_refl st : grown st st.
Proof. exists []. cbn. now rewrite app_nil_r. Qed.

Lemma call_set_unknown_grown st0 (o : obj) (a : string) st :
  grown st0 st -> grown st0 (call_set_unknown o a st).
Proof.
  intros [marks H]. exists (marks ++ [(o, a)]).
  unfold call_set_unknown, emit, set_regs. cbn [trace].
  now rewrite H, map_app, <- app_assoc.
Qed.

Lemma secondary_scan_grown (mcobj : list (string * regex)) st :
  grown st (secondary_scan mcobj st).
Proof.
  unfold secondary_scan.
  apply (fold_left_invariant (grown st)); [|apply grown_refl].
  intros a fc _ Ha. unfold rescan.
  apply (fold_left_invariant (grown st)); [|exact Ha].
  intros a' cc _ Ha'.
  apply (fold_left_invariant (grown st)); [|exact Ha'].
  intros a'' m _ Ha''. unfold mark_unknown.
  apply (fold_left_invariant (grown st)); [|exact Ha''].
  intros b [o key] _ Hb. destruct (String.eqb _ _); [|exact Hb].
  now apply call_set_unknown_grown.
Qed.

(** X24: what a run that returns does after the loop over the files is, in
    this order, the line [Verifying ...], calls of [set_unknown] and of
    nothing else, the calls of [showMissingTech] for the outfits and then
    for the ships, and, only when [show_unused] is set, the calls of
    [show_unused] for the outfits, the ships, the fleets and the diffs. *)
Theorem after_loop_events (cfg : config) st st' :
  verify cfg st = Done st' ->
  exists marks,
    trace st' =
    trace st ++ Stdout "Verifying ..." :: map mark_event marks
    ++ report_events cfg.
Proof.
  unfold verify. cbv zeta. intros H.
  assert (Hrep : forall (s : state R) marks,
    trace s = trace st ++ Stdout "Verifying ..." :: map mark_event marks ->
    trace (report cfg s) =
    trace st ++ Stdout "Verifying ..." :: map mark_event marks
    ++ report_events cfg).
  { intros s marks Hs. unfold report, report_events, emit.
    destruct (show_unused cfg); cbn [trace]; rewrite Hs;
      rewrite <- ?app_assoc; cbn [app]; rewrite <- ?app_assoc; reflexivity. }
  destruct (0 <? _)%nat; [destruct (build_mcobj _) as [mcobj|]|];
    try discriminate; injection H as <-.
  - destruct (secondary_scan_grown mcobj (emit [Stdout "Verifying ..."] st))
      as [marks Hm].
    exists marks. apply Hrep. rewrite Hm. unfold emit. cbn [trace].
    now rewrite <- app_assoc.
  - exists []. apply Hrep. unfold emit. cbn [trace map]. reflexivity.
Qed.

End AfterLoopEvents.

Lemma after_loop_events_witness :
  verify quiet comment_state = Done (final (verify quiet comment_state)) /\
  exists marks,
    trace (final (verify quiet comment_state)) =
    trace comment_state ++ Stdout "Verifying ..." :: map mark_event marks
    ++ report_events quiet.
Proof.
  assert (H : verify quiet comment_state
              = Done (final (verify quiet comment_state)))
    by (vm_compute; reflexivity).
  split; [exact H | exact (after_loop_events quiet comment_state _ H)].
Defined.

Lemma addLuaFile_takes_witness :
  ends_lua "oldlua" = true /\
  addLuaFile ["readme.txt"; "cargo.lua"; "ua"; "oldlua"]%string "/naev/scripts/"
    ["/naev/a.lua"%string]
  = ["/naev/a.lua"; "/naev/scripts/cargo.lua"; "/naev/scripts/oldlua"]%string /\
  exists stem, "oldlua"%string = (stem ++ "lua")%string.
Proof.
  assert (H : ends_lua "oldlua" = true) by reflexivity.
  split; [exact H|]. split; [vm_compute; reflexivity|].
  exact (proj1 (proj2 (addLuaFile_takes [] EmptyString []) "oldlua"%string) H).
Defined.
